(** * knack: the command invoker ([knack/invocation.py])

    A shallow embedding of [CommandInvoker] and the properties of its
    invocation pipeline: parameter filtering, the validation chain, the
    implicit-deprecation walk, event ordering and the invocation state.

    Conventions of the embedding.
    - A Python [str] is a [string] whose characters are read as code points
      below 256.
    - The [__dict__] of an object and every Python [dict] is an association
      list in insertion order with distinct keys.
    - Objects that the code mutates in place (the argument list, the parsed
      namespace, list objects, [event_data], [self.data]) live in a heap that
      is threaded through every call.
    - The collaborators that are not part of [invocation.py] (event bus,
      command loader, parser, help, completion, validators, handlers,
      [todict], [print], [colorama]) are one function [ext] from the action
      and the heap to an outcome and a heap; the invoker logs every action
      it performs.
    - A [for] loop over a list object reads the list as it stands at each
      round, so such a loop need not end; the embedding runs it for at most
      [fuel] rounds and ends it as [OutOfFuel] when it has rounds left. *)

From Stdlib Require Import String Ascii List Bool Arith ZArith Lia DecimalString.
Import ListNotations.
Local Open Scope string_scope.
Local Open Scope list_scope.

Set Implicit Arguments.
Set Warnings "-register-all".

(* ===================================================================== *)
(** ** Strings as Python uses them *)
(* ===================================================================== *)

Module Str.

(** [str.startswith(prefix)] *)
Definition startswith (prefix s : string) : bool := String.prefix prefix s.

(** [ch.lower()] for a code point below 256: [A-Z], and the Latin-1
    capitals U+00C0..U+00DE except the multiplication sign U+00D7. *)
Definition lower_char (c : ascii) : ascii :=
  let n := nat_of_ascii c in
  if (((65 <=? n) && (n <=? 90))
      || ((192 <=? n) && (n <=? 222) && negb (n =? 215)))%nat
  then ascii_of_nat (n + 32) else c.

(** [s.lower()] *)
Fixpoint lower (s : string) : string :=
  match s with
  | EmptyString => EmptyString
  | String c s' => String (lower_char c) (lower s')
  end.

(** [ch.isspace()] for a code point below 256. *)
Definition isspace (c : ascii) : bool :=
  let n := nat_of_ascii c in
  (((9 <=? n) && (n <=? 13)) || ((28 <=? n) && (n <=? 32))
   || (n =? 133) || (n =? 160))%nat.

Definition emit (cur : string) (rest : list string) : list string :=
  match cur with EmptyString => rest | _ => cur :: rest end.

(** [s.split()] with no separator: maximal runs of non-space characters. *)
Fixpoint split_from (cur : string) (s : string) : list string :=
  match s with
  | EmptyString => emit cur []
  | String c s' =>
      if isspace c then emit cur (split_from EmptyString s')
      else split_from (cur ++ String c EmptyString) s'
  end.

Definition split (s : string) : list string := split_from EmptyString s.

(** [sep.join(parts)] *)
Definition join (sep : string) (parts : list string) : string :=
  String.concat sep parts.

(** [repr(s)] of a string without quotes or escapes in it. *)
Definition repr (s : string) : string := "'" ++ s ++ "'".

End Str.

(* ===================================================================== *)
(** ** Python values *)
(* ===================================================================== *)

(** The values that travel through the invoker.  [VList] is a reference to a
    list object of the heap (lists are mutated in place); [VTuple] is an
    immutable sequence.  [VDeprecated] is a [Deprecated] object given by its
    [__dict__]; [VImplicitDeprecated kwargs] is the
    [ImplicitDeprecated] object built from the keyword arguments [kwargs].
    [VCommand] is a command descriptor ([CLICommand]): its [name], its
    [deprecate_info] and its [table_transformer]; it is callable. *)
Inductive Value : Type :=
| VNone
| VBool (b : bool)
| VInt (z : Z)
| VStr (s : string)
| VTuple (items : list Value)
| VList (loc : nat)
| VDict (items : list (string * Value))
| VFunc (f : nat)
| VObj (o : nat)
| VDeprecated (__dict__ : list (string * Value))
| VImplicitDeprecated (kwargs : list (string * Value))
| VCommand (name : string) (deprecate_info : Value) (table_transformer : Value).

(** A Python [dict] with string keys, in insertion order. *)
Definition Dict : Type := list (string * Value).

Module PyDict.

(** [d.get(k)] / [k in d] *)
Fixpoint get (k : string) (d : Dict) : option Value :=
  match d with
  | [] => None
  | (k', v) :: d' => if String.eqb k k' then Some v else get k d'
  end.

Definition mem (k : string) (d : Dict) : bool :=
  match get k d with Some _ => true | None => false end.

(** [d[k] = v]: an existing key keeps its position, a new one goes last. *)
Fixpoint set (k : string) (v : Value) (d : Dict) : Dict :=
  match d with
  | [] => [(k, v)]
  | (k', v') :: d' =>
      if String.eqb k k' then (k', v) :: d' else (k', v') :: set k v d'
  end.

(** The mapping left by removing [k] ([del d[k]], [d.pop(k, None)],
    [delattr]); whether a missing key is an error is the caller's business. *)
Fixpoint remove (k : string) (d : Dict) : Dict :=
  match d with
  | [] => []
  | (k', v') :: d' =>
      if String.eqb k k' then d' else (k', v') :: remove k d'
  end.

(** [dict(pairs)] *)
Definition of_pairs (pairs : list (string * Value)) : Dict :=
  fold_left (fun d kv => set (fst kv) (snd kv) d) pairs [].

Definition keys (d : Dict) : list string := map fst d.

(** The invariant of a Python dict: no key twice. *)
Definition wf (d : Dict) : Prop := NoDup (keys d).

End PyDict.

(* ===================================================================== *)
(** ** [CommandInvoker._filter_params] *)
(* ===================================================================== *)

(** [_filter_params(self, args)], on [args.__dict__]:
<<
    params = dict([(key, value)
                   for key, value in args.__dict__.items()
                   if not key.startswith('_')])
    params.pop('func', None)
    params.pop('command', None)
    return params
>> *)
Definition _filter_params (args__dict__ : Dict) : Dict :=
  let params :=
    PyDict.of_pairs
      (filter (fun kv => negb (Str.startswith "_" (fst kv))) args__dict__) in
  let params := PyDict.remove "func" params in
  let params := PyDict.remove "command" params in
  params.

(** The fields the handler is meant to see. *)
Definition public_field (k : string) : bool :=
  negb (Str.startswith "_" k) && negb (String.eqb k "func")
  && negb (String.eqb k "command").

(* ===================================================================== *)
(** ** Exceptions and outcomes *)
(* ===================================================================== *)

(** The three classes of exception that [_validation] tells apart:
    [CLIError] (the user-facing error of [knack.util]), any other subclass
    of [Exception], and what [except Exception] lets through
    ([SystemExit], [KeyboardInterrupt]).  [msg] is [str(err)].

    [OutOfFuel] is no exception of Python.  It is how a loop of the
    embedding ends when it has been given fewer rounds than it needs (and
    how a collaborator that does not return can be written); no handler
    catches it, and a run that ends in it says nothing of what the code does
    from there on. *)
Inductive Exc : Type :=
| CLIError (msg : string)
| Exception (type_name : string) (msg : string)
| BaseException (type_name : string) (msg : string)
| OutOfFuel.

(** [str(err)] *)
Definition str_exc (e : Exc) : string :=
  match e with
  | CLIError msg => msg
  | Exception _ msg => msg
  | BaseException _ msg => msg
  | OutOfFuel => ""
  end.

Inductive Result (A : Type) : Type :=
| Ok (a : A)
| Raise (e : Exc).
Arguments Ok {A} a.
Arguments Raise {A} e.

(** [type(v).__name__], for the messages of the interpreter's own errors. *)
Definition type_name (v : Value) : string :=
  match v with
  | VNone => "NoneType"
  | VBool _ => "bool"
  | VInt _ => "int"
  | VStr _ => "str"
  | VTuple _ => "tuple"
  | VList _ => "list"
  | VDict _ => "dict"
  | VFunc _ => "function"
  | VObj _ => "object"
  | VDeprecated _ => "Deprecated"
  | VImplicitDeprecated _ => "ImplicitDeprecated"
  | VCommand _ _ _ => "CLICommand"
  end.

Definition AttributeError (v : Value) (attr : string) : Exc :=
  Exception "AttributeError"
    ("'" ++ type_name v ++ "' object has no attribute '" ++ attr ++ "'").

Definition NamespaceAttributeError (attr : string) : Exc :=
  Exception "AttributeError"
    ("'Namespace' object has no attribute '" ++ attr ++ "'").

Definition KeyError (key : string) : Exc :=
  Exception "KeyError" (Str.repr key).

Definition TypeError (msg : string) : Exc := Exception "TypeError" msg.

(** Functions, commands: what can be called. *)
Definition callable (v : Value) : bool :=
  match v with
  | VFunc _ | VCommand _ _ _ => true
  | _ => false
  end.

(* ===================================================================== *)
(** ** The heap *)
(* ===================================================================== *)

(** List objects, by location. *)
Definition ListStore : Type := list (nat * list Value).

Module Lists.

Fixpoint get (loc : nat) (ls : ListStore) : option (list Value) :=
  match ls with
  | [] => None
  | (l, items) :: ls' => if Nat.eqb loc l then Some items else get loc ls'
  end.

Fixpoint set (loc : nat) (items : list Value) (ls : ListStore) : ListStore :=
  match ls with
  | [] => [(loc, items)]
  | (l, old) :: ls' =>
      if Nat.eqb loc l then (l, items) :: ls' else (l, old) :: set loc items ls'
  end.

(** The elements of the list object at [loc]. *)
Definition read (loc : nat) (ls : ListStore) : list Value :=
  match get loc ls with Some items => items | None => [] end.

(** A location that no list object of the store has. *)
Definition fresh (ls : ListStore) : nat := S (list_max (map fst ls)).

End Lists.

(** [self.data]: a [defaultdict(lambda: None)] or a plain [dict]. *)
Record InvData : Type := mkInvData {
  is_defaultdict : bool;
  items : Dict
}.

(** [bool(v)]; a list object is true when it has elements. *)
Definition truthy (ls : ListStore) (v : Value) : bool :=
  match v with
  | VNone => false
  | VBool b => b
  | VInt z => negb (Z.eqb z 0)
  | VStr s => negb (String.eqb s "")
  | VTuple l => match l with [] => false | _ => true end
  | VList loc => match Lists.get loc ls with Some (_ :: _) => true | _ => false end
  | VDict d => match d with [] => false | _ => true end
  | VFunc _ | VObj _ | VDeprecated _ | VImplicitDeprecated _
  | VCommand _ _ _ => true
  end.

(** [CommandResultItem(result, table_transformer=..., is_query_active=...)] *)
Record CommandResultItem : Type := mkCommandResultItem {
  result : Value;
  table_transformer : Value;
  is_query_active : Value
}.

(** The events of [knack.events] that the invoker raises, each with the
    keyword arguments it is raised with, as they stand when it is raised.
    The objects themselves (the argument list, the namespace, [event_data])
    are in the heap that the subscribers receive. *)
Inductive Event : Type :=
| EVENT_INVOKER_PRE_CMD_TBL_CREATE (args : list string)
| EVENT_INVOKER_POST_CMD_TBL_CREATE (cmd_tbl : Value)
| EVENT_INVOKER_CMD_TBL_LOADED (parser : Value)
| EVENT_INVOKER_PRE_PARSE_ARGS (args : list string)
| EVENT_INVOKER_POST_PARSE_ARGS (command : Value) (args : Dict)
| EVENT_INVOKER_TRANSFORM_RESULT (event_data : Dict)
| EVENT_INVOKER_FILTER_RESULT (event_data : Dict).

(** What the invoker asks of its collaborators. *)
Inductive Action : Type :=
| raise_event (e : Event)                      (* self.cli_ctx.raise_event(...) *)
| load_command_table (args : list string)      (* self.commands_loader.load_command_table(args) *)
| load_arguments (command : string)            (* self.commands_loader.load_arguments(command) *)
| parser_load_command_table                    (* self.parser.load_command_table(self.commands_loader) *)
| enable_autocomplete                          (* self.cli_ctx.completion.enable_autocomplete(self.parser) *)
| subparsers_root                              (* self.parser.subparsers[tuple()] *)
| show_welcome (subparser : Value)             (* self.help.show_welcome(subparser) *)
| parse_args (args : list string)              (* self.parser.parse_args(args) *)
| call_validator (validator : Value)           (* validator(ns) *)
| validation_error (parser : Value) (message : string) (* parser.validation_error(message) *)
| colorama_init                                (* colorama.init() *)
| print_message (d : Value)                    (* print(d.message, file=sys.stderr) *)
| colorama_deinit                              (* colorama.deinit() *)
| call_handler (func : Value) (params : Dict)  (* parsed_args.func(params) *)
| todict (cmd_result : Value).                 (* todict(cmd_result) *)

Section Heap.

(** The state of the collaborators (command table, registered hooks, ...). *)
Variable World : Type.

(** Everything a run can change.  [h_ns] is the [__dict__] of the
    [Namespace] object that [parse_args] returns: the parser fills it,
    hooks and validators may change it, the invoker deletes from it. *)
Record Heap : Type := mkHeap {
  h_args : list string;      (* the list object passed as [args] *)
  h_data : InvData;          (* self.data *)
  h_ns : Dict;               (* parsed_args.__dict__ *)
  h_lists : ListStore;       (* list objects *)
  h_event_data : Dict;       (* event_data *)
  h_world : World
}.

Definition set_args (args : list string) (h : Heap) : Heap :=
  mkHeap args (h_data h) (h_ns h) (h_lists h) (h_event_data h) (h_world h).
Definition set_data (d : InvData) (h : Heap) : Heap :=
  mkHeap (h_args h) d (h_ns h) (h_lists h) (h_event_data h) (h_world h).
Definition set_ns (ns : Dict) (h : Heap) : Heap :=
  mkHeap (h_args h) (h_data h) ns (h_lists h) (h_event_data h) (h_world h).
Definition set_lists (ls : ListStore) (h : Heap) : Heap :=
  mkHeap (h_args h) (h_data h) (h_ns h) ls (h_event_data h) (h_world h).
Definition set_event_data (d : Dict) (h : Heap) : Heap :=
  mkHeap (h_args h) (h_data h) (h_ns h) (h_lists h) d (h_world h).

(** A run: the heap and the log of the actions performed so far. *)
Definition State : Type := (Heap * list Action)%type.

(** Computations that read and write the state and may raise; the state
    at the point of a raise is kept. *)
Definition M (A : Type) : Type := State -> Result A * State.

Definition ret {A} (a : A) : M A := fun s => (Ok a, s).

Definition bind {A B} (m : M A) (k : A -> M B) : M B :=
  fun s =>
    match m s with
    | (Ok a, s') => k a s'
    | (Raise e, s') => (Raise e, s')
    end.

Definition raise {A} (e : Exc) : M A := fun s => (Raise e, s).

(** [try: body  except ...: handler(err)] *)
Definition try_except {A} (body : M A) (handler : Exc -> M A) : M A :=
  fun s =>
    match body s with
    | (Ok a, s') => (Ok a, s')
    | (Raise e, s') => handler e s'
    end.

Definition get_heap : M Heap := fun s => (Ok (fst s), s).

Definition modify (f : Heap -> Heap) : M unit :=
  fun s => (Ok tt, (f (fst s), snd s)).

Definition lift {A} (r : Result A) : M A := fun s => (r, s).

End Heap.

Arguments ret {World A} a _.
Arguments bind {World A B} m k _.
Arguments raise {World A} e _.
Arguments try_except {World A} body handler _.
Arguments get_heap {World} _.
Arguments modify {World} f _.
Arguments lift {World A} r _.

Declare Scope inv_scope.
Delimit Scope inv_scope with inv.
Notation "x <- c1 ;; c2" := (bind c1 (fun x => c2))
  (at level 100, c1 at next level, right associativity) : inv_scope.
Notation "c1 ;; c2" := (bind c1 (fun _ => c2))
  (at level 100, right associativity) : inv_scope.

Local Open Scope inv_scope.

(* ===================================================================== *)
(** ** [CommandInvoker] *)
(* ===================================================================== *)

(** [self.data = initial_data or defaultdict(lambda: None)]
    [self.data['command'] = 'unknown']
    (the part of [__init__] that builds the invocation state;
    [initial_data] is [None] or a mapping). *)
Definition __init__ (initial_data : option InvData) : InvData :=
  let data :=
    match initial_data with
    | None => mkInvData true []
    | Some d => match items d with [] => mkInvData true [] | _ => d end
    end in
  mkInvData (is_defaultdict data) (PyDict.set "command" (VStr "unknown") (items data)).

(** [current[0] == '-'], false on the [IndexError] of an empty token. *)
Definition starts_option (current : string) : bool :=
  match current with
  | String c _ => Ascii.eqb c "-"
  | EmptyString => false
  end.

(** The loop of [_rudimentary_get_command]: the nouns collected and the
    argument list as the loop leaves it ([args[i] = current.lower()]). *)
Fixpoint scan_nouns (args : list string) : list string * list string :=
  match args with
  | [] => ([], [])
  | current :: rest =>
      if starts_option current then ([], current :: rest)
      else
        let (nouns, rest') := scan_nouns rest in
        (Str.lower current :: nouns, Str.lower current :: rest')
  end.

(** [del d[key]] *)
Definition delitem (key : string) (d : Dict) : Result Dict :=
  if PyDict.mem key d then Ok (PyDict.remove key d) else Raise (KeyError key).

(** Lines 161-165: the keyword arguments of the implicit descriptor, from
    the [__dict__] of the descriptor that was found.
<<
    deprecate_kwargs = implicit_deprecate_info.__dict__.copy()
    deprecate_kwargs['object_type'] = 'command'
    del deprecate_kwargs['_get_tag']
    del deprecate_kwargs['_get_message']
>> *)
Definition implicit_kwargs (found__dict__ : Dict) : Result Dict :=
  let deprecate_kwargs := found__dict__ in
  let deprecate_kwargs := PyDict.set "object_type" (VStr "command") deprecate_kwargs in
  match delitem "_get_tag" deprecate_kwargs with
  | Raise e => Raise e
  | Ok deprecate_kwargs => delitem "_get_message" deprecate_kwargs
  end.

(** [cmd.name], [cmd.deprecate_info], [cmd.table_transformer] *)
Definition cmd_name (cmd : Value) : Result string :=
  match cmd with
  | VCommand name _ _ => Ok name
  | _ => Raise (AttributeError cmd "name")
  end.

Definition cmd_deprecate_info (cmd : Value) : Result Value :=
  match cmd with
  | VCommand _ deprecate_info _ => Ok deprecate_info
  | _ => Raise (AttributeError cmd "deprecate_info")
  end.

Definition cmd_table_transformer (cmd : Value) : Result Value :=
  match cmd with
  | VCommand _ _ table_transformer => Ok table_transformer
  | _ => Raise (AttributeError cmd "table_transformer")
  end.

(** [hash(v)] fails on a list, on a dict and on a tuple that holds one:
    the type that the [TypeError] names, [None] for a value that has a
    hash. *)
Fixpoint unhashable (v : Value) : option string :=
  match v with
  | VList _ => Some "list"
  | VDict _ => Some "dict"
  | VTuple l =>
      (fix first (l : list Value) : option string :=
         match l with
         | [] => None
         | x :: l' =>
             match unhashable x with
             | Some t => Some t
             | None => first l'
             end
         end) l
  | _ => None
  end.

(** [repr(v)] of a value that can be the key of a dict.  The language fixes
    it for [None], booleans, integers, strings and tuples of these; the
    representation of any other object names its type and an address, of
    which the type is kept. *)
Fixpoint repr (v : Value) : string :=
  match v with
  | VNone => "None"
  | VBool true => "True"
  | VBool false => "False"
  | VInt z => NilZero.string_of_int (Z.to_int z)
  | VStr s => Str.repr s
  | VTuple l =>
      match l with
      | [] => "()"
      | [x] => ("(" ++ repr x ++ ",)")%string
      | x :: l' =>
          ("(" ++ repr x
           ++ (fix more (l : list Value) : string :=
                 match l with
                 | [] => ""
                 | y :: l'' => ", " ++ repr y ++ more l''
                 end) l'
           ++ ")")%string
      end
  | _ => ("<" ++ type_name v ++ ">")%string
  end.

(** [seq[key]] for a sequence of [len] elements: the position that an
    integer key (a [bool] is an integer) stands for, counted from the end
    when it is negative. *)
Definition sequence_index (kind : string) (len : nat) (key : Value) : Result nat :=
  let at_ (z : Z) : Result nat :=
    let i := if (z <? 0)%Z then (z + Z.of_nat len)%Z else z in
    if ((0 <=? i)%Z && (i <? Z.of_nat len)%Z)%bool then Ok (Z.to_nat i)
    else Raise (Exception "IndexError" (kind ++ " index out of range")) in
  match key with
  | VInt z => at_ z
  | VBool b => at_ (if b then 1%Z else 0%Z)
  | _ =>
      Raise (TypeError
               (if String.eqb kind "string"
                then ("string indices must be integers, not '" ++ type_name key ++ "'")%string
                else (kind ++ " indices must be integers or slices, not "
                      ++ type_name key)%string))
  end.

(** [cmd_tbl[key]].  The command table is a dict keyed by command name; a
    key that is no string is in no such dict, and the [KeyError] carries
    the key, so that its message is [repr(key)].  [ls] holds the list
    objects, for a table that is a list. *)
Definition getitem (ls : ListStore) (cmd_tbl key : Value) : Result Value :=
  let element (kind : string) (l : list Value) : Result Value :=
    match sequence_index kind (length l) key with
    | Ok i => match nth_error l i with
              | Some v => Ok v
              | None => Raise (Exception "IndexError" (kind ++ " index out of range"))
              end
    | Raise e => Raise e
    end in
  match cmd_tbl with
  | VDict d =>
      match unhashable key with
      | Some t => Raise (TypeError ("unhashable type: '" ++ t ++ "'"))
      | None =>
          match key with
          | VStr k =>
              match PyDict.get k d with
              | Some v => Ok v
              | None => Raise (KeyError k)
              end
          | _ => Raise (Exception "KeyError" (repr key))
          end
      end
  | VList loc => element "list" (Lists.read loc ls)
  | VTuple l => element "tuple" l
  | VStr s =>
      element "string" (map (fun c => VStr (String c EmptyString)) (list_ascii_of_string s))
  | _ => Raise (TypeError ("'" ++ type_name cmd_tbl ++ "' object is not subscriptable"))
  end.

Definition is_AttributeError (e : Exc) : bool :=
  match e with
  | Exception t _ => String.eqb t "AttributeError"
  | _ => false
  end.

Section CommandInvoker.

Variable World : Type.

(** The collaborators: what each action returns or raises, and what it
    does to the heap. *)
Variable ext : Action -> Heap World -> Result Value * Heap World.

(** [resolve_deprecate_info(self.cli_ctx, name)] of [knack.deprecation], a
    lookup in the registry: the [__dict__] of the descriptor registered for
    the command or group [name], [None] when there is none. *)
Variable resolve_deprecate_info : World -> string -> option Dict.

(** [self.parser] *)
Variable self_parser : Value.

(** The rounds that a loop over a list object may make. *)
Variable fuel : nat.

Abbreviation M := (M World).

(** A call to a collaborator, logged. *)
Definition perform (a : Action) : M Value :=
  fun s =>
    let (r, h') := ext a (fst s) in
    (r, (h', snd s ++ [a])).

Definition get_args : M (list string) :=
  h <- get_heap ;; ret (h_args h).

Definition get_ns : M Dict :=
  h <- get_heap ;; ret (h_ns h).

(** [ns.attr] *)
Definition getattr (attr : string) : M Value :=
  ns <- get_ns ;;
  match PyDict.get attr ns with
  | Some v => ret v
  | None => raise (NamespaceAttributeError attr)
  end.

(** [delattr(ns, attr)] *)
Definition delattr (attr : string) : M unit :=
  ns <- get_ns ;;
  if PyDict.mem attr ns then modify (set_ns (PyDict.remove attr ns))
  else raise (NamespaceAttributeError attr).

(** [try: delattr(ns, attr)  except AttributeError: pass] *)
Definition delattr_if_present (attr : string) : M unit :=
  try_except (delattr attr)
    (fun e => if is_AttributeError e then ret tt else raise e).

(** A new empty list object [[]]. *)
Definition new_list : M Value :=
  h <- get_heap ;;
  let loc := Lists.fresh (h_lists h) in
  modify (set_lists (Lists.set loc [] (h_lists h))) ;;
  ret (VList loc).

(** [lst.append(x)] *)
Definition append (lst x : Value) : M unit :=
  match lst with
  | VList loc =>
      modify (fun h =>
        set_lists (Lists.set loc (Lists.read loc (h_lists h) ++ [x]) (h_lists h)) h)
  | _ => raise (AttributeError lst "append")
  end.

(** A loop over elements that are fixed when it starts. *)
Fixpoint for_each {A} (l : list A) (body : A -> M unit) : M unit :=
  match l with
  | [] => ret tt
  | x :: l' => body x ;; for_each l' body
  end.

(** A loop over the list object [loc], from index [i].  The iterator of a
    list keeps an index: each round reads the list as it stands then, takes
    the element at the index if there is one and ends the loop otherwise.
    What the body appends is visited; what it removes is not.  [n] is the
    number of rounds left to the loop. *)
Fixpoint for_list (n : nat) (loc i : nat) (body : Value -> M unit) : M unit :=
  h <- get_heap ;;
  match nth_error (Lists.read loc (h_lists h)) i with
  | None => ret tt
  | Some x =>
      match n with
      | O => raise OutOfFuel
      | S n' => body x ;; for_list n' loc (S i) body
      end
  end.

(** [for x in v: body(x)].  A tuple, a string (by its characters) and a
    dict (by its keys) are values and are walked as they are; a list is
    walked as [for_list] does. *)
Definition for_in (v : Value) (body : Value -> M unit) : M unit :=
  match v with
  | VTuple l => for_each l body
  | VList loc => for_list fuel loc 0 body
  | VStr s =>
      for_each (map (fun c => VStr (String c EmptyString)) (list_ascii_of_string s)) body
  | VDict d => for_each (map VStr (PyDict.keys d)) body
  | _ => raise (TypeError ("'" ++ type_name v ++ "' object is not iterable"))
  end.

(** [if v:] *)
Definition is_true (v : Value) : M bool :=
  h <- get_heap ;; ret (truthy (h_lists h) v).

(** [validator(ns)] *)
Definition call_with_ns (validator : Value) : M unit :=
  if callable validator then perform (call_validator validator) ;; ret tt
  else raise (TypeError ("'" ++ type_name validator ++ "' object is not callable")).

(** [self.data[key]] *)
Definition data_getitem (key : string) : M Value :=
  h <- get_heap ;;
  match PyDict.get key (items (h_data h)) with
  | Some v => ret v
  | None =>
      if is_defaultdict (h_data h) then
        modify (set_data (mkInvData true (PyDict.set key VNone (items (h_data h))))) ;;
        ret VNone
      else raise (KeyError key)
  end.

(** [self.data[key] = v] *)
Definition data_setitem (key : string) (v : Value) : M unit :=
  modify (fun h =>
    set_data (mkInvData (is_defaultdict (h_data h)) (PyDict.set key v (items (h_data h)))) h).

(** [_rudimentary_get_command(self, args)]:
<<
    nouns = []
    for i, current in enumerate(args):
        try:
            if current[0] == '-':
                break
        except IndexError:
            pass
        args[i] = current.lower()
        nouns.append(args[i])
    return ' '.join(nouns)
>> *)
Definition _rudimentary_get_command : M string :=
  args <- get_args ;;
  let (nouns, args') := scan_nouns args in
  modify (set_args args') ;;
  ret (Str.join " " nouns).

(** [_validate_cmd_level(self, ns, cmd_validator)]:
<<
    if cmd_validator:
        cmd_validator(ns)
    try:
        delattr(ns, '_command_validator')
    except AttributeError:
        pass
>> *)
Definition _validate_cmd_level (cmd_validator : Value) : M unit :=
  b <- is_true cmd_validator ;;
  (if b then call_with_ns cmd_validator else ret tt) ;;
  delattr_if_present "_command_validator".

(** [_validate_arg_level(self, ns, **_)]:
<<
    for validator in getattr(ns, '_argument_validators', []):
        validator(ns)
    try:
        delattr(ns, '_argument_validators')
    except AttributeError:
        pass
>> *)
Definition _validate_arg_level : M unit :=
  ns <- get_ns ;;
  match PyDict.get "_argument_validators" ns with
  | Some validators => for_in validators call_with_ns
  | None => ret tt
  end ;;
  delattr_if_present "_argument_validators".

(** [_validation(self, parsed_ns)]:
<<
    try:
        cmd_validator = getattr(parsed_ns, '_command_validator', None)
        if cmd_validator:
            self._validate_cmd_level(parsed_ns, cmd_validator)
        else:
            self._validate_arg_level(parsed_ns)
    except CLIError:
        raise
    except Exception:
        err = sys.exc_info()[1]
        getattr(parsed_ns, '_parser', self.parser).validation_error(str(err))
>>
    [validation_try] is the body of the [try], [validation_except] the
    [except] clauses. *)
Definition validation_try : M unit :=
  ns <- get_ns ;;
  let cmd_validator :=
    match PyDict.get "_command_validator" ns with Some v => v | None => VNone end in
  b <- is_true cmd_validator ;;
  if b then _validate_cmd_level cmd_validator
  else _validate_arg_level.

Definition validation_except (err : Exc) : M unit :=
  match err with
  | CLIError _ => raise err
  | Exception _ _ =>
      ns <- get_ns ;;
      let parser :=
        match PyDict.get "_parser" ns with Some p => p | None => self_parser end in
      perform (validation_error parser (str_exc err)) ;;
      ret tt
  | BaseException _ _ => raise err
  | OutOfFuel => raise err
  end.

Definition _validation : M unit :=
  try_except validation_try validation_except.

(** The [while] loop of lines 156-158, which runs at most once per path
    component ([fuel] counts the iterations left):
<<
    while path_comps and not implicit_deprecate_info:
        implicit_deprecate_info = resolve_deprecate_info(self.cli_ctx, ' '.join(path_comps))
        del path_comps[-1]
>> *)
Fixpoint while_path_comps (fuel : nat) (w : World) (path_comps : list string)
    (implicit_deprecate_info : option Dict) : option Dict :=
  match fuel with
  | O => implicit_deprecate_info
  | S fuel' =>
      match path_comps, implicit_deprecate_info with
      | _ :: _, None =>
          while_path_comps fuel' w (removelast path_comps)
            (resolve_deprecate_info w (Str.join " " path_comps))
      | _, _ => implicit_deprecate_info
      end
  end.

(** Lines 154-158: the search for an implicit deprecation.
<<
    path_comps = cmd.name.split()[:-1]
    implicit_deprecate_info = None
    while ...
>> *)
Definition search_implicit_deprecation (w : World) (name : string) : option Dict :=
  let path_comps := removelast (Str.split name) in
  while_path_comps (length path_comps) w path_comps None.

(** Lines 154-165: the implicit descriptor of the command [name], [None]
    when no ancestor is deprecated. *)
Definition implicit_deprecation (w : World) (name : string) : Result (option Value) :=
  match search_implicit_deprecation w name with
  | None => Ok None
  | Some found =>
      match implicit_kwargs found with
      | Ok deprecate_kwargs => Ok (Some (VImplicitDeprecated deprecate_kwargs))
      | Raise e => Raise e
      end
  end.

(** Lines 119-126 of [execute]: building and registering the command table.
    Returns [cmd_tbl]. *)
Definition load_stage : M Value :=
  args <- get_args ;;
  perform (raise_event (EVENT_INVOKER_PRE_CMD_TBL_CREATE args)) ;;
  args <- get_args ;;
  cmd_tbl <- perform (load_command_table args) ;;
  command <- _rudimentary_get_command ;;
  perform (load_arguments command) ;;
  perform (raise_event (EVENT_INVOKER_POST_CMD_TBL_CREATE cmd_tbl)) ;;
  perform parser_load_command_table ;;
  perform (raise_event (EVENT_INVOKER_CMD_TBL_LOADED self_parser)) ;;
  ret cmd_tbl.

(** Lines 128-131: the run without arguments. *)
Definition welcome_stage : M (option CommandResultItem) :=
  perform enable_autocomplete ;;
  subparser <- perform subparsers_root ;;
  perform (show_welcome subparser) ;;
  ret None.

(** Lines 133-134:
<<
    if args[0].lower() == 'help':
        args[0] = '--help'
>> *)
Definition normalize_help (args : list string) : list string :=
  match args with
  | first :: rest =>
      if String.eqb (Str.lower first) "help" then "--help" :: rest else args
  | [] => args
  end.

(** Lines 133-140: parsing. *)
Definition parse_stage : M unit :=
  modify (fun h => set_args (normalize_help (h_args h)) h) ;;
  perform enable_autocomplete ;;
  args <- get_args ;;
  perform (raise_event (EVENT_INVOKER_PRE_PARSE_ARGS args)) ;;
  args <- get_args ;;
  perform (parse_args args) ;;
  command <- getattr "command" ;;
  parsed_args <- get_ns ;;
  perform (raise_event (EVENT_INVOKER_POST_PARSE_ARGS command parsed_args)) ;;
  ret tt.

(** Lines 148-170: collecting and printing the deprecation warnings.
<<
    cmd = parsed_args.func
    deprecations = getattr(parsed_args, '_argument_deprecations', [])
    if cmd.deprecate_info:
        deprecations.append(cmd.deprecate_info)
    ... (the search for an implicit deprecation)
    if implicit_deprecate_info:
        ...
        deprecations.append(ImplicitDeprecated(...))
    colorama.init()
    for d in deprecations:
        print(d.message, file=sys.stderr)
    colorama.deinit()
>> *)
Definition collect_deprecations : M Value :=
  cmd <- getattr "func" ;;
  ns <- get_ns ;;
  deprecations <-
    match PyDict.get "_argument_deprecations" ns with
    | Some v => ret v
    | None => new_list
    end ;;
  deprecate_info <- lift (cmd_deprecate_info cmd) ;;
  b <- is_true deprecate_info ;;
  (if b then append deprecations deprecate_info else ret tt) ;;
  name <- lift (cmd_name cmd) ;;
  h <- get_heap ;;
  implicit <- lift (implicit_deprecation (h_world h) name) ;;
  match implicit with
  | Some d => append deprecations d
  | None => ret tt
  end ;;
  ret deprecations.

Definition print_deprecations (deprecations : Value) : M unit :=
  perform colorama_init ;;
  for_in deprecations (fun d => perform (print_message d) ;; ret tt) ;;
  perform colorama_deinit ;;
  ret tt.

(** Lines 172-181: running the handler and shaping its result. *)
Definition result_stage (cmd_tbl : Value) (params : Dict) : M (option CommandResultItem) :=
  func <- getattr "func" ;;
  cmd_result <-
    (if callable func then perform (call_handler func params)
     else raise (TypeError ("'" ++ type_name func ++ "' object is not callable"))) ;;
  cmd_result <- perform (todict cmd_result) ;;
  modify (set_event_data [("result", cmd_result)]) ;;
  h <- get_heap ;;
  perform (raise_event (EVENT_INVOKER_TRANSFORM_RESULT (h_event_data h))) ;;
  h <- get_heap ;;
  perform (raise_event (EVENT_INVOKER_FILTER_RESULT (h_event_data h))) ;;
  h <- get_heap ;;
  result <-
    match PyDict.get "result" (h_event_data h) with
    | Some v => ret v
    | None => raise (KeyError "result")
    end ;;
  command <- getattr "command" ;;
  h <- get_heap ;;
  cmd <- lift (getitem (h_lists h) cmd_tbl command) ;;
  table_transformer <- lift (cmd_table_transformer cmd) ;;
  is_query_active <- data_getitem "query_active" ;;
  ret (Some (mkCommandResultItem result table_transformer is_query_active)).

(** Lines 142-181: from validation to the result. *)
Definition run_stage (cmd_tbl : Value) : M (option CommandResultItem) :=
  _validation ;;
  command <- getattr "command" ;;
  data_setitem "command" command ;;
  parsed_args <- get_ns ;;
  let params := _filter_params parsed_args in
  deprecations <- collect_deprecations ;;
  print_deprecations deprecations ;;
  result_stage cmd_tbl params.


(** [execute(self, args)]; [None] is the return without a result. *)
Definition execute (args : list string) : M (option CommandResultItem) :=
  modify (set_args args) ;;
  cmd_tbl <- load_stage ;;
  args <- get_args ;;
  match args with
  | [] => welcome_stage
  | _ :: _ =>
      parse_stage ;;
      run_stage cmd_tbl
  end.

(** The heap once each of [validators] has been called in turn and has
    returned; [None] when one of them raises or cannot be called. *)
Fixpoint after_validators (validators : list Value) (h : Heap World) : option (Heap World) :=
  match validators with
  | [] => Some h
  | v :: rest =>
      if callable v then
        match ext (call_validator v) h with
        | (Ok _, h') => after_validators rest h'
        | (Raise _, _) => None
        end
      else None
  end.

(** The list object [loc] reads the same after each of [validators], called
    in turn from [h], has returned: none of them has changed the list the
    loop is walking. *)
Definition list_kept (loc : nat) (validators : list Value) (h : Heap World) : Prop :=
  forall k hk,
    after_validators (firstn k validators) h = Some hk ->
    Lists.read loc (h_lists hk) = Lists.read loc (h_lists h).

(** [parsed_ns._parser] if the namespace has one, [self.parser] otherwise. *)
Definition error_parser (h : Heap World) : Value :=
  match PyDict.get "_parser" (h_ns h) with
  | Some p => p
  | None => self_parser
  end.

(** The validators the chain has to call for the namespace as it stands:
    the command-level validator alone when one is attached, the elements of
    the attached argument-validator list otherwise. *)
Definition validators_to_run (h : Heap World) : list Value :=
  let cmd_validator :=
    match PyDict.get "_command_validator" (h_ns h) with Some v => v | None => VNone end in
  if truthy (h_lists h) cmd_validator then [cmd_validator]
  else
    match PyDict.get "_argument_validators" (h_ns h) with
    | Some (VList loc) => Lists.read loc (h_lists h)
    | Some (VTuple l) => l
    | _ => []
    end.

End CommandInvoker.

(** ** Reading the log *)

(** The validators called, in order. *)
Fixpoint validator_calls (log : list Action) : list Value :=
  match log with
  | [] => []
  | call_validator v :: log' => v :: validator_calls log'
  | _ :: log' => validator_calls log'
  end.

(** The name of an event. *)
Definition event_name (e : Event) : string :=
  match e with
  | EVENT_INVOKER_PRE_CMD_TBL_CREATE _ => "EVENT_INVOKER_PRE_CMD_TBL_CREATE"
  | EVENT_INVOKER_POST_CMD_TBL_CREATE _ => "EVENT_INVOKER_POST_CMD_TBL_CREATE"
  | EVENT_INVOKER_CMD_TBL_LOADED _ => "EVENT_INVOKER_CMD_TBL_LOADED"
  | EVENT_INVOKER_PRE_PARSE_ARGS _ => "EVENT_INVOKER_PRE_PARSE_ARGS"
  | EVENT_INVOKER_POST_PARSE_ARGS _ _ => "EVENT_INVOKER_POST_PARSE_ARGS"
  | EVENT_INVOKER_TRANSFORM_RESULT _ => "EVENT_INVOKER_TRANSFORM_RESULT"
  | EVENT_INVOKER_FILTER_RESULT _ => "EVENT_INVOKER_FILTER_RESULT"
  end.

(** The events raised, in order. *)
Fixpoint events_raised (log : list Action) : list string :=
  match log with
  | [] => []
  | raise_event e :: log' => event_name e :: events_raised log'
  | _ :: log' => events_raised log'
  end.

(** The warnings printed, in order. *)
Fixpoint printed (log : list Action) : list Value :=
  match log with
  | [] => []
  | print_message d :: log' => d :: printed log'
  | _ :: log' => printed log'
  end.

(** The order of events that the specification fixes. *)
Definition event_order : list string :=
  [ "EVENT_INVOKER_PRE_CMD_TBL_CREATE";
    "EVENT_INVOKER_POST_CMD_TBL_CREATE";
    "EVENT_INVOKER_CMD_TBL_LOADED";
    "EVENT_INVOKER_PRE_PARSE_ARGS";
    "EVENT_INVOKER_POST_PARSE_ARGS";
    "EVENT_INVOKER_TRANSFORM_RESULT";
    "EVENT_INVOKER_FILTER_RESULT" ].



(** The part of the heap that the deprecation warnings depend on: the list
    objects, the registry, and the [func] and [_argument_deprecations]
    attributes of the namespace. *)
Definition warnings_view {World} (ls : ListStore) (w : World) (func argdep : option Value)
    (h : Heap World) : Prop :=
  h_lists h = ls /\ h_world h = w
  /\ PyDict.get "func" (h_ns h) = func
  /\ PyDict.get "_argument_deprecations" (h_ns h) = argdep.

(** A computation keeps a property of the heap. *)
Definition preserves {World A} (J : Heap World -> Prop) (m : M World A) : Prop :=
  forall s, J (fst s) -> J (fst (snd (m s))).

(** What collecting the warnings of a command appends to the
    argument-level ones: its own descriptor if it has one, then the implicit
    one if there is one. *)
Definition command_warnings (ls : ListStore) (info : Value) (implicit : option Value)
  : list Value :=
  (if truthy ls info then [info] else [])
  ++ match implicit with Some d => [d] | None => [] end.



(* ===================================================================== *)
(** ** The resolver as the specification words it *)
(* ===================================================================== *)

(** The paths the specification has the resolver look up, for the ancestor
    tokens [comps]: the full path, then the path without its last token, and
    so on down to the first token alone, each joined by single spaces. *)
Definition ancestor_paths (comps : list string) : list string :=
  map (fun k => Str.join " " (firstn k comps)) (rev (seq 1 (length comps))).

(** The first of [paths] that carries a descriptor. *)
Fixpoint first_match (lookup : string -> option Dict) (paths : list string) : option Dict :=
  match paths with
  | [] => None
  | path :: rest =>
      match lookup path with
      | Some found => Some found
      | None => first_match lookup rest
      end
  end.

(* ===================================================================== *)
(** ** Scripted collaborators, for the examples *)
(* ===================================================================== *)

(** What the collaborators of an example do: the command table the loader
    returns, the descriptors registered per command or group path, the
    namespace and the list objects the parser builds, the validators that
    raise, and what the subscribers of the two result events write to
    [event_data['result']]. *)
Record Script : Type := mkScript {
  sc_cmd_tbl : Dict;
  sc_deprecated : Dict;
  sc_namespace : Dict;
  sc_lists : ListStore;
  sc_raising : list (nat * Exc);
  sc_transform : option Value;
  sc_filter : option Value
}.

Fixpoint raising (f : nat) (l : list (nat * Exc)) : option Exc :=
  match l with
  | [] => None
  | (g, e) :: l' => if Nat.eqb f g then Some e else raising f l'
  end.

Definition write_result (v : option Value) (h : Heap Script) : Heap Script :=
  match v with
  | Some v => set_event_data (PyDict.set "result" v (h_event_data h)) h
  | None => h
  end.

Definition scripted (a : Action) (h : Heap Script) : Result Value * Heap Script :=
  let sc := h_world h in
  match a with
  | load_command_table _ => (Ok (VDict (sc_cmd_tbl sc)), h)
  | parse_args _ => (Ok VNone, set_lists (sc_lists sc) (set_ns (sc_namespace sc) h))
  | call_validator (VFunc f) =>
      match raising f (sc_raising sc) with
      | Some e => (Raise e, h)
      | None => (Ok VNone, h)
      end
  | call_handler _ params => (Ok (VDict params), h)
  | todict v => (Ok v, h)
  | raise_event (EVENT_INVOKER_TRANSFORM_RESULT _) => (Ok VNone, write_result (sc_transform sc) h)
  | raise_event (EVENT_INVOKER_FILTER_RESULT _) => (Ok VNone, write_result (sc_filter sc) h)
  | _ => (Ok VNone, h)
  end.

Definition scripted_resolve (sc : Script) (path : string) : option Dict :=
  match PyDict.get path (sc_deprecated sc) with
  | Some (VDeprecated d) => Some d
  | _ => None
  end.

(** The heap a fresh invoker starts from. *)
Definition initial_heap (initial_data : option InvData) (sc : Script) : Heap Script :=
  mkHeap [] (__init__ initial_data) [] [] [] sc.

(** A run of [execute] against scripted collaborators, with eight rounds
    for each loop: the lists of the examples are shorter. *)
Definition run (initial_data : option InvData) (sc : Script) (args : list string)
  : Result (option CommandResultItem) * State Script :=
  execute scripted scripted_resolve (VObj 0) 8 args (initial_heap initial_data sc, []).

(** Collaborators that do nothing and return [None]. *)
Definition passive (a : Action) (h : Heap unit) : Result Value * Heap unit :=
  (Ok VNone, h).

(** The example of the specification: the command [vm create] in the
    deprecated group [vm].  Here the command carries an explicit deprecation
    of its own as well, and its [--name] argument is deprecated too. *)
Definition vm_group : Dict :=
  [ ("object_type", VStr "command group"); ("target", VStr "vm");
    ("redirect", VNone); ("hide", VBool false); ("expiration", VNone);
    ("_get_tag", VFunc 10); ("_get_message", VFunc 11); ("cli_ctx", VObj 1) ].

Definition vm_create_info : Dict :=
  [ ("object_type", VStr "command"); ("target", VStr "vm create");
    ("redirect", VStr "vm new"); ("hide", VBool false); ("expiration", VNone);
    ("_get_tag", VFunc 12); ("_get_message", VFunc 13); ("cli_ctx", VObj 1) ].

Definition name_info : Dict :=
  [ ("object_type", VStr "argument"); ("target", VStr "--name");
    ("redirect", VNone); ("hide", VBool false); ("expiration", VNone);
    ("_get_tag", VFunc 14); ("_get_message", VFunc 15); ("cli_ctx", VObj 1) ].

Definition vm_create : Value :=
  VCommand "vm create" (VDeprecated vm_create_info) VNone.

Definition vm_namespace : Dict :=
  [ ("name", VStr "box"); ("_argument_deprecations", VList 1);
    ("func", vm_create); ("command", VStr "vm create");
    ("_command_validator", VNone); ("_argument_validators", VList 0);
    ("_parser", VObj 2) ].

Definition vm_script : Script :=
  mkScript
    [("vm create", vm_create)]
    [("vm", VDeprecated vm_group)]
    vm_namespace
    [(0, [VFunc 20; VFunc 21]); (1, [VDeprecated name_info])]
    [] None None.

(** The same, with a second validator that raises an error of its own. *)
Definition vm_script_fault : Script :=
  mkScript (sc_cmd_tbl vm_script) (sc_deprecated vm_script) (sc_namespace vm_script)
    (sc_lists vm_script) [(21, Exception "ValueError" "bad name")] None None.

(** The same, with a second validator that raises a [CLIError]. *)
Definition vm_script_clierror : Script :=
  mkScript (sc_cmd_tbl vm_script) (sc_deprecated vm_script) (sc_namespace vm_script)
    (sc_lists vm_script) [(21, CLIError "name is taken")] None None.

(** The same, with subscribers to the two result events. *)
Definition vm_script_hooks : Script :=
  mkScript (sc_cmd_tbl vm_script) (sc_deprecated vm_script) (sc_namespace vm_script)
    (sc_lists vm_script) []
    (Some (VDict [("a", VInt 1)]))
    (Some (VDict [("a", VInt 1); ("b", VInt 2)])).

(** What the synthesized descriptor of [vm create] is built from. *)
Definition vm_implicit_kwargs : Dict :=
  [ ("object_type", VStr "command"); ("target", VStr "vm");
    ("redirect", VNone); ("hide", VBool false); ("expiration", VNone);
    ("cli_ctx", VObj 1) ].

(** The registry of the example, for collaborators without a state. *)
Definition vm_registry (w : unit) (path : string) : option Dict :=
  scripted_resolve vm_script path.

(** The heap of the example once [vm create --name box] has been parsed,
    for the passive collaborators and for the scripted ones with a
    validator that raises. *)
Definition vm_parsed : Heap unit :=
  mkHeap ["vm"; "create"; "--name"; "box"] (__init__ None) vm_namespace
    (sc_lists vm_script) [] tt.

Definition vm_parsed_fault : Heap Script :=
  mkHeap ["vm"; "create"; "--name"; "box"] (__init__ None) vm_namespace
    (sc_lists vm_script) [] vm_script_fault.

(** An invoker built with [initial_data={'tenant': 'contoso'}]. *)
Definition plain_initial_data : InvData :=
  mkInvData false [("tenant", VStr "contoso")].

(** A registry whose group [vm] carries a descriptor without the two
    accessor fields. *)
Definition bare_registry (w : unit) (path : string) : option Dict :=
  if String.eqb path "vm" then Some [("target", VStr "vm")] else None.

(** The registry of the example with the command [vm create] itself and
    its sibling [vm delete] registered as deprecated too. *)
Definition vm_registry_more (w : unit) (path : string) : option Dict :=
  if String.eqb path "vm create" then Some vm_create_info
  else if String.eqb path "vm delete" then Some name_info
  else vm_registry w path.

(** ** The order of the pipeline *)

(** The place of an action in the text of [execute], counting the calls to
    collaborators from the first line to the last. *)
Definition step (a : Action) : nat :=
  match a with
  | raise_event (EVENT_INVOKER_PRE_CMD_TBL_CREATE _) => 1
  | load_command_table _ => 2
  | load_arguments _ => 3
  | raise_event (EVENT_INVOKER_POST_CMD_TBL_CREATE _) => 4
  | parser_load_command_table => 5
  | raise_event (EVENT_INVOKER_CMD_TBL_LOADED _) => 6
  | enable_autocomplete => 7
  | subparsers_root => 8
  | show_welcome _ => 9
  | raise_event (EVENT_INVOKER_PRE_PARSE_ARGS _) => 10
  | parse_args _ => 11
  | raise_event (EVENT_INVOKER_POST_PARSE_ARGS _ _) => 12
  | call_validator _ => 13
  | validation_error _ _ => 14
  | colorama_init => 15
  | print_message _ => 16
  | colorama_deinit => 17
  | call_handler _ _ => 18
  | todict _ => 19
  | raise_event (EVENT_INVOKER_TRANSFORM_RESULT _) => 20
  | raise_event (EVENT_INVOKER_FILTER_RESULT _) => 21
  end.

(** The calls that sit in a loop. *)
Definition repeatable (a : Action) : bool :=
  match a with
  | call_validator _ | print_message _ => true
  | _ => false
  end.

(** The first place that may follow [a]. *)
Definition next_step (a : Action) : nat :=
  if repeatable a then step a else S (step a).

(** A log runs forward from place [n]: every action is at or after [n] and
    strictly after the one before it, unless that one sits in a loop, in
    which case it may be at the same place. *)
Fixpoint in_order (n : nat) (log : list Action) : Prop :=
  match log with
  | [] => True
  | a :: log' => n <= step a /\ in_order (next_step a) log'
  end.

(** A computation that leaves the log as it is. *)
Definition quiet {World A} (m : M World A) : Prop :=
  forall s, snd (snd (m s)) = snd s.

(** A computation whose actions run forward from place [lo] and stay below
    [hi]. *)
Definition within {World A} (lo hi : nat) (m : M World A) : Prop :=
  forall s, exists added,
    snd (snd (m s)) = snd s ++ added
    /\ in_order lo added
    /\ Forall (fun a => step a < hi) added.

(** A computation that only repeats the loop action of place [p]. *)
Definition repeats_at {World A} (p : nat) (m : M World A) : Prop :=
  forall s, exists added,
    snd (snd (m s)) = snd s ++ added
    /\ Forall (fun a => step a = p /\ repeatable a = true) added.

(** The namespace of a heap is [ns0] up to the two validator attributes:
    it has distinct attribute names, the same value as [ns0] for every other
    attribute, and the same parameters for the handler. *)
Definition namespace_view {World} (ns0 : Dict) (h : Heap World) : Prop :=
  PyDict.wf (h_ns h)
  /\ (forall k, k <> "_command_validator" -> k <> "_argument_validators" ->
                PyDict.get k (h_ns h) = PyDict.get k ns0)
  /\ _filter_params (h_ns h) = _filter_params ns0.

(** A token of a command name: not empty and without white space. *)
Fixpoint no_space (t : string) : bool :=
  match t with
  | EmptyString => true
  | String c t' => negb (Str.isspace c) && no_space t'
  end.

Definition plain_token (t : string) : bool :=
  negb (String.eqb t "") && no_space t.

(** The command table of the example. *)
Definition vm_cmd_tbl : Value := VDict [("vm create", vm_create)].

(** What the loading and parsing stages hand to the collaborators in a run
    of [execute] on [args]: the list as passed to the first event and to
    [load_command_table], the command name of the heuristic to
    [load_arguments], and the list left by the heuristic, with a leading
    [help] rewritten, to the pre-parse-args event and to [parse_args]. *)
Definition passed (args : list string) (a : Action) : Prop :=
  match a with
  | raise_event (EVENT_INVOKER_PRE_CMD_TBL_CREATE x) => x = args
  | load_command_table x => x = args
  | load_arguments command => command = Str.join " " (fst (scan_nouns args))
  | raise_event (EVENT_INVOKER_PRE_PARSE_ARGS x) =>
      x = normalize_help (snd (scan_nouns args))
  | parse_args x => x = normalize_help (snd (scan_nouns args))
  | _ => True
  end.

(** A computation that does not read the log: from one heap and two logs it
    has the same outcome, ends in the same heap and adds the same actions. *)
Definition log_blind {World A} (m : M World A) : Prop :=
  forall h l1 l2, exists r h' tail,
    m (h, l1) = (r, (h', l1 ++ tail)) /\ m (h, l2) = (r, (h', l2 ++ tail)).

(* ===================================================================== *)
(** * Properties *)
(* ===================================================================== *)

Unset Implicit Arguments.

(** ** Dictionaries *)

Lemma get_In_keys k d v : PyDict.get k d = Some v -> In k (PyDict.keys d).
Proof.
  induction d as [|[k' v'] d IH]; simpl; [discriminate|].
  destruct (String.eqb_spec k k'); [now left | intros H; right; auto].
Qed.

Lemma get_notin k d : ~ In k (PyDict.keys d) -> PyDict.get k d = None.
Proof.
  induction d as [|[k' v'] d IH]; simpl; [reflexivity|].
  intros H. destruct (String.eqb_spec k k'); [exfalso; auto | apply IH; auto].
Qed.

Lemma set_notin k v d : ~ In k (PyDict.keys d) -> PyDict.set k v d = d ++ [(k, v)].
Proof.
  induction d as [|[k' v'] d IH]; simpl; [reflexivity|].
  intros H. destruct (String.eqb_spec k k'); [exfalso; auto|].
  rewrite IH; auto.
Qed.

Lemma of_pairs_acc pairs : forall acc,
  NoDup (PyDict.keys (acc ++ pairs)) ->
  fold_left (fun d kv => PyDict.set (fst kv) (snd kv) d) pairs acc = acc ++ pairs.
Proof.
  induction pairs as [|[k v] pairs IH]; intros acc H; simpl.
  - now rewrite app_nil_r.
  - assert (Hk : ~ In k (PyDict.keys acc)).
    { unfold PyDict.keys in *. rewrite map_app in H. simpl in H.
      apply NoDup_remove_2 in H. intros Hin. apply H. apply in_or_app. now left. }
    rewrite set_notin by exact Hk.
    rewrite IH; rewrite <- app_assoc; simpl; [reflexivity | exact H].
Qed.

Lemma of_pairs_wf pairs : PyDict.wf pairs -> PyDict.of_pairs pairs = pairs.
Proof. intros H. unfold PyDict.of_pairs. now rewrite of_pairs_acc. Qed.

Lemma keys_filter_incl (p : string * Value -> bool) d k :
  In k (PyDict.keys (filter p d)) -> In k (PyDict.keys d).
Proof.
  unfold PyDict.keys. rewrite !in_map_iff. intros [x [Hx Hin]].
  apply filter_In in Hin. exists x. tauto.
Qed.

Lemma filter_wf (p : string * Value -> bool) d : PyDict.wf d -> PyDict.wf (filter p d).
Proof.
  unfold PyDict.wf. induction d as [|[k v] d IH]; simpl; intros H; [constructor|].
  inversion H as [|? ? Hk Hd]; subst.
  destruct (p (k, v)); simpl; [constructor|]; auto.
  intros Hin. apply Hk. eapply keys_filter_incl; eauto.
Qed.

Lemma filter_other_keys k d :
  ~ In k (PyDict.keys d) ->
  filter (fun kv => negb (String.eqb (fst kv) k)) d = d.
Proof.
  induction d as [|[k' v'] d IH]; simpl; intros H; [reflexivity|].
  destruct (String.eqb_spec k' k); simpl.
  - exfalso. apply H. now left.
  - f_equal. apply IH. intros Hin. apply H. now right.
Qed.

Lemma remove_filter k d :
  PyDict.wf d ->
  PyDict.remove k d = filter (fun kv => negb (String.eqb (fst kv) k)) d.
Proof.
  unfold PyDict.wf. induction d as [|[k' v'] d IH]; simpl; intros H; [reflexivity|].
  inversion H as [|? ? Hk Hd]; subst.
  rewrite (String.eqb_sym k' k).
  destruct (String.eqb_spec k k'); simpl.
  - subst k'. symmetry. now apply filter_other_keys.
  - f_equal. now apply IH.
Qed.

Lemma filter_filter {A} (p q : A -> bool) l :
  filter p (filter q l) = filter (fun x => q x && p x) l.
Proof.
  induction l as [|x l IH]; simpl; [reflexivity|].
  destruct (q x); simpl; [destruct (p x)|]; now rewrite IH.
Qed.

Lemma get_filter_key (p : string -> bool) d k :
  PyDict.get k (filter (fun kv => p (fst kv)) d) = if p k then PyDict.get k d else None.
Proof.
  induction d as [|[k' v'] d IH]; simpl; [now destruct (p k)|].
  destruct (p k') eqn:Hp; simpl; destruct (String.eqb_spec k k') as [->|Hne];
    rewrite ?Hp; try exact IH.
  - reflexivity.
  - rewrite IH, Hp. reflexivity.
Qed.

(** ** The parameter filter *)

Lemma filter_params_filter ns :
  PyDict.wf ns -> _filter_params ns = filter (fun kv => public_field (fst kv)) ns.
Proof.
  intros H. unfold _filter_params.
  rewrite of_pairs_wf by now apply filter_wf.
  rewrite (remove_filter "func") by now apply filter_wf.
  rewrite (remove_filter "command") by now do 2 apply filter_wf.
  rewrite !filter_filter. apply filter_ext. intros [k v].
  unfold public_field. simpl. now rewrite andb_assoc.
Qed.

(** C3.  On the field mapping of a parsed structure, [_filter_params]
    returns the fields whose names do not start with an underscore and are
    neither [func] nor [command], in the order of the source mapping and
    with their values: looking up a name in the result gives its original
    value for such a field and nothing for any other; [func] and [command]
    are never in it.  The function has no state to change: it is a function
    of the mapping alone. *)
Theorem filter_params_correct (ns : Dict) :
  PyDict.wf ns ->
  _filter_params ns = filter (fun kv => public_field (fst kv)) ns
  /\ (forall k, PyDict.get k (_filter_params ns)
                = if public_field k then PyDict.get k ns else None)
  /\ PyDict.get "func" (_filter_params ns) = None
  /\ PyDict.get "command" (_filter_params ns) = None
  /\ PyDict.wf (_filter_params ns).
Proof.
  intros H. pose proof (filter_params_filter ns H) as E. rewrite E.
  assert (G : forall k, PyDict.get k (filter (fun kv => public_field (fst kv)) ns)
                        = if public_field k then PyDict.get k ns else None)
    by (intros k; apply get_filter_key).
  repeat split.
  - exact G.
  - now rewrite G.
  - now rewrite G.
  - now apply filter_wf.
Qed.

(** ** The implicit-deprecation walk *)

Section Resolver.

Variable World : Type.
Variable resolve : World -> string -> option Dict.

Lemma while_found fuel w comps found :
  while_path_comps resolve fuel w comps (Some found) = Some found.
Proof. destruct fuel; simpl; [reflexivity | now destruct comps]. Qed.

Lemma length_removelast {A} (l : list A) : length (removelast l) = pred (length l).
Proof.
  rewrite removelast_firstn_len, length_firstn. apply Nat.min_l. lia.
Qed.

Lemma ancestor_paths_step comps :
  comps <> [] ->
  ancestor_paths comps = Str.join " " comps :: ancestor_paths (removelast comps).
Proof.
  intros Hne. unfold ancestor_paths. rewrite length_removelast.
  destruct (length comps) as [|n] eqn:Hlen.
  - destruct comps; [congruence | discriminate].
  - simpl pred. rewrite seq_S, rev_app_distr.
    cbn [rev app map Nat.add]. rewrite <- Hlen at 1. rewrite firstn_all. f_equal.
    apply map_ext_in. intros k Hk. apply in_rev, in_seq in Hk.
    rewrite firstn_removelast by lia. reflexivity.
Qed.

(** The loop leaves by its own condition: with at least one round per
    component, it returns what the specification's walk returns. *)
Lemma while_first_match w : forall fuel comps,
  length comps <= fuel ->
  while_path_comps resolve fuel w comps None
  = first_match (resolve w) (ancestor_paths comps).
Proof.
  induction fuel as [|fuel IH]; intros comps Hlen.
  - destruct comps; [reflexivity | simpl in Hlen; lia].
  - destruct comps as [|c comps']; [reflexivity|].
    rewrite ancestor_paths_step by discriminate.
    cbn [while_path_comps first_match].
    destruct (resolve w (Str.join " " (c :: comps'))) as [found|].
    + apply while_found.
    + apply IH. rewrite length_removelast. simpl in *. lia.
Qed.

Lemma first_match_deepest (lookup : string -> option Dict) (f : nat -> string) : forall n k found,
  1 <= k <= n -> lookup (f k) = Some found ->
  (forall j, k < j <= n -> lookup (f j) = None) ->
  first_match lookup (map f (rev (seq 1 n))) = Some found.
Proof.
  induction n as [|n IH]; intros k found Hk Hf Hnone; [lia|].
  rewrite seq_S, rev_app_distr. simpl.
  destruct (Nat.eq_dec k (S n)) as [->|Hne].
  - now rewrite Hf.
  - rewrite (Hnone (S n)) by lia. apply (IH k); [lia | exact Hf |].
    intros j Hj. apply Hnone. lia.
Qed.

Lemma first_match_none (lookup : string -> option Dict) (f : nat -> string) : forall n,
  (forall j, 1 <= j <= n -> lookup (f j) = None) ->
  first_match lookup (map f (rev (seq 1 n))) = None.
Proof.
  induction n as [|n IH]; intros Hnone; [reflexivity|].
  rewrite seq_S, rev_app_distr. simpl.
  rewrite (Hnone (S n)) by lia. apply IH. intros j Hj. apply Hnone. lia.
Qed.

End Resolver.

Lemma get_set k k' v d :
  PyDict.get k (PyDict.set k' v d) = if String.eqb k k' then Some v else PyDict.get k d.
Proof.
  induction d as [|[k2 v2] d IH]; simpl.
  - reflexivity.
  - destruct (String.eqb_spec k' k2) as [->|Hne]; simpl.
    + destruct (String.eqb_spec k k2); reflexivity.
    + rewrite IH. destruct (String.eqb_spec k k2) as [->|]; [|reflexivity].
      destruct (String.eqb_spec k2 k'); congruence.
Qed.

Lemma get_remove_other k k' d :
  k <> k' -> PyDict.get k (PyDict.remove k' d) = PyDict.get k d.
Proof.
  intros Hne. induction d as [|[k2 v2] d IH]; simpl; [reflexivity|].
  destruct (String.eqb_spec k' k2) as [->|]; simpl.
  - destruct (String.eqb_spec k k2); congruence.
  - now rewrite IH.
Qed.

Lemma keys_remove_incl k k' d :
  In k (PyDict.keys (PyDict.remove k' d)) -> In k (PyDict.keys d).
Proof.
  induction d as [|[k2 v2] d IH]; simpl; [tauto|].
  destruct (String.eqb_spec k' k2); simpl; tauto.
Qed.

Lemma remove_wf k d : PyDict.wf d -> PyDict.wf (PyDict.remove k d).
Proof.
  unfold PyDict.wf. induction d as [|[k2 v2] d IH]; simpl; intros H; [constructor|].
  inversion H as [|? ? Hk Hd]; subst.
  destruct (String.eqb_spec k k2); simpl; [exact Hd|].
  constructor; [|auto]. intros Hin. apply Hk. eapply keys_remove_incl; eauto.
Qed.

Lemma get_remove_same k d : PyDict.wf d -> PyDict.get k (PyDict.remove k d) = None.
Proof.
  unfold PyDict.wf. induction d as [|[k2 v2] d IH]; simpl; intros H; [reflexivity|].
  inversion H as [|? ? Hk Hd]; subst.
  destruct (String.eqb_spec k k2) as [->|Hne]; simpl.
  - now apply get_notin.
  - destruct (String.eqb_spec k k2); [congruence | auto].
Qed.

Lemma keys_set k v d :
  PyDict.keys (PyDict.set k v d)
  = if PyDict.mem k d then PyDict.keys d else PyDict.keys d ++ [k].
Proof.
  unfold PyDict.mem. induction d as [|[k2 v2] d IH]; simpl; [reflexivity|].
  destruct (String.eqb_spec k k2); simpl; [reflexivity|].
  rewrite IH. now destruct (PyDict.get k d).
Qed.

Lemma set_wf k v d : PyDict.wf d -> PyDict.wf (PyDict.set k v d).
Proof.
  unfold PyDict.wf. intros H. rewrite keys_set. unfold PyDict.mem.
  destruct (PyDict.get k d) eqn:E; [exact H|].
  apply NoDup_app; [exact H | repeat constructor; simpl; tauto |].
  intros x Hx [<-|[]]. revert Hx E. clear.
  induction d as [|[k2 v2] d IH]; simpl; [tauto|].
  destruct (String.eqb_spec k k2); [discriminate|].
  intros [->|Hin]; [congruence | auto].
Qed.

Lemma implicit_kwargs_ok found :
  PyDict.wf found ->
  PyDict.mem "_get_tag" found = true ->
  PyDict.mem "_get_message" found = true ->
  exists kwargs,
    implicit_kwargs found = Ok kwargs
    /\ PyDict.get "object_type" kwargs = Some (VStr "command")
    /\ PyDict.get "_get_tag" kwargs = None
    /\ PyDict.get "_get_message" kwargs = None
    /\ (forall k, k <> "object_type" -> k <> "_get_tag" -> k <> "_get_message" ->
                  PyDict.get k kwargs = PyDict.get k found).
Proof.
  intros Hwf Htag Hmsg. unfold implicit_kwargs, delitem.
  set (d1 := PyDict.set "object_type" (VStr "command") found).
  assert (Hwf1 : PyDict.wf d1) by now apply set_wf.
  assert (Htag1 : PyDict.mem "_get_tag" d1 = true).
  { unfold PyDict.mem, d1 in *. now rewrite get_set. }
  rewrite Htag1.
  set (d2 := PyDict.remove "_get_tag" d1).
  assert (Hmsg2 : PyDict.mem "_get_message" d2 = true).
  { unfold PyDict.mem, d2, d1 in *.
    rewrite get_remove_other by discriminate. now rewrite get_set. }
  rewrite Hmsg2.
  exists (PyDict.remove "_get_message" d2). split; [reflexivity|].
  repeat split.
  - unfold d2, d1. rewrite !get_remove_other by discriminate. now rewrite get_set.
  - rewrite get_remove_other by discriminate. unfold d2. now apply get_remove_same.
  - apply get_remove_same. now apply remove_wf.
  - intros k H1 H2 H3. unfold d2, d1. rewrite !get_remove_other by assumption.
    rewrite get_set. destruct (String.eqb_spec k "object_type"); congruence.
Qed.

(** C1.  The deprecation resolver, for every command name [name] and every
    registry.  With [comps] the tokens of the name without the last one:
    the search looks up the joined path of all of [comps], then of [comps]
    without its last token, and so on, and returns the first descriptor it
    finds, which is the one of the deepest deprecated ancestor; when no
    ancestor path carries a descriptor the result is absent and nothing is
    synthesized; and on a match the result is an [ImplicitDeprecated] built
    from the fields of the found descriptor with [object_type] set to
    ["command"] and without [_get_tag] and [_get_message]. *)
Theorem implicit_deprecation_resolver
    (World : Type) (resolve : World -> string -> option Dict) (w : World) (name : string) :
  let comps := removelast (Str.split name) in
  let path := fun k => Str.join " " (firstn k comps) in
  search_implicit_deprecation resolve w name
    = first_match (resolve w) (ancestor_paths comps)
  /\ (forall k found,
        (1 <= k <= length comps)%nat ->
        resolve w (path k) = Some found ->
        (forall j, (k < j <= length comps)%nat -> resolve w (path j) = None) ->
        search_implicit_deprecation resolve w name = Some found)
  /\ ((forall j, (1 <= j <= length comps)%nat -> resolve w (path j) = None) ->
        implicit_deprecation resolve w name = Ok None)
  /\ (forall found,
        search_implicit_deprecation resolve w name = Some found ->
        PyDict.wf found ->
        PyDict.mem "_get_tag" found = true ->
        PyDict.mem "_get_message" found = true ->
        exists kwargs,
          implicit_deprecation resolve w name = Ok (Some (VImplicitDeprecated kwargs))
          /\ PyDict.get "object_type" kwargs = Some (VStr "command")
          /\ PyDict.get "_get_tag" kwargs = None
          /\ PyDict.get "_get_message" kwargs = None
          /\ (forall k, k <> "object_type" -> k <> "_get_tag" -> k <> "_get_message" ->
                        PyDict.get k kwargs = PyDict.get k found)).
Proof.
  intros comps path.
  assert (E : search_implicit_deprecation resolve w name
              = first_match (resolve w) (ancestor_paths comps)).
  { unfold search_implicit_deprecation. fold comps. now apply while_first_match. }
  split; [exact E|]. split; [|split].
  - intros k found Hk Hf Hnone. rewrite E. unfold ancestor_paths.
    now apply first_match_deepest with (k := k).
  - intros Hnone. unfold implicit_deprecation. rewrite E. unfold ancestor_paths.
    now rewrite first_match_none.
  - intros found Hs Hwf Htag Hmsg. unfold implicit_deprecation. rewrite Hs.
    destruct (implicit_kwargs_ok found Hwf Htag Hmsg) as [kwargs [Hk Hprops]].
    exists kwargs. now rewrite Hk.
Qed.

(** ** The validation chain *)



Lemma remove_absent k d : PyDict.mem k d = false -> PyDict.remove k d = d.
Proof.
  unfold PyDict.mem. induction d as [|[k2 v2] d IH]; simpl; [reflexivity|].
  destruct (String.eqb_spec k k2); [discriminate|]. intros H. now rewrite IH.
Qed.

Lemma for_list_unfold {World} n loc i (body : Value -> M World unit) s :
  for_list n loc i body s
  = bind get_heap
      (fun h =>
         match nth_error (Lists.read loc (h_lists h)) i with
         | None => ret tt
         | Some x =>
             match n with
             | O => raise OutOfFuel
             | S n' => bind (body x) (fun _ => for_list n' loc (S i) body)
             end
         end) s.
Proof. destruct n; reflexivity. Qed.

Lemma nth_error_middle {A} (l1 : list A) x l2 : nth_error (l1 ++ x :: l2) (length l1) = Some x.
Proof. induction l1; simpl; auto. Qed.

Lemma nth_error_end {A} (l : list A) : nth_error l (length l) = None.
Proof. induction l; simpl; auto. Qed.

Lemma firstn_length_app {A} (l1 l2 : list A) : firstn (length l1) (l1 ++ l2) = l1.
Proof. induction l1; simpl; [now destruct l2 | congruence]. Qed.

Section ValidationChain.

Variable World : Type.
Variable ext : Action -> Heap World -> Result Value * Heap World.
Variable self_parser : Value.
Variable fuel : nat.

Lemma set_ns_same (h : Heap World) : set_ns (h_ns h) h = h.
Proof. now destruct h. Qed.

Lemma delattr_if_present_run attr (h : Heap World) log :
  delattr_if_present attr (h, log)
  = (Ok tt, (set_ns (PyDict.remove attr (h_ns h)) h, log)).
Proof.
  unfold delattr_if_present, try_except, delattr, bind, get_ns, get_heap, ret. simpl.
  destruct (PyDict.mem attr (h_ns h)) eqn:E.
  - reflexivity.
  - unfold raise. simpl. now rewrite remove_absent, set_ns_same.
Qed.

Lemma call_with_ns_run v (h : Heap World) log :
  callable v = true ->
  call_with_ns ext v (h, log)
  = match ext (call_validator v) h with
    | (Ok _, h') => (Ok tt, (h', log ++ [call_validator v]))
    | (Raise e, h') => (Raise e, (h', log ++ [call_validator v]))
    end.
Proof.
  intros Hc. unfold call_with_ns, perform, bind, ret. rewrite Hc. simpl.
  now destruct (ext (call_validator v) h) as [[r|e] h'].
Qed.

Lemma after_validators_app : forall l1 l2 (h : Heap World),
  after_validators ext (l1 ++ l2) h
  = match after_validators ext l1 h with
    | Some h1 => after_validators ext l2 h1
    | None => None
    end.
Proof.
  induction l1 as [|v l1 IH]; simpl; intros l2 h; [reflexivity|].
  destruct (callable v); [|reflexivity].
  destruct (ext (call_validator v) h) as [[r|e] h1]; [apply IH | reflexivity].
Qed.

Lemma for_each_raises : forall pre v post (h h1 h2 : Heap World) e log,
  after_validators ext pre h = Some h1 ->
  callable v = true ->
  ext (call_validator v) h1 = (Raise e, h2) ->
  for_each (pre ++ v :: post) (call_with_ns ext) (h, log)
  = (Raise e, (h2, log ++ map call_validator (pre ++ [v]))).
Proof.
  induction pre as [|p pre IH]; simpl; intros v post h h1 h2 e log H Hc He.
  - injection H as <-. unfold bind. rewrite call_with_ns_run by exact Hc.
    now rewrite He.
  - destruct (callable p) eqn:Hp; [|discriminate].
    unfold bind. rewrite call_with_ns_run by exact Hp.
    destruct (ext (call_validator p) h) as [[r|e'] h']; [|discriminate].
    rewrite (IH _ _ _ _ _ _ _ H Hc He). now rewrite <- app_assoc.
Qed.

(** The loop over a list object that the validators leave as it is: the
    validators called so far are [done], those still to come [rest]. *)
Lemma for_list_returns loc (l : list Value) (h0 : Heap World) :
  (forall d r hk, l = d ++ r -> after_validators ext d h0 = Some hk ->
                  Lists.read loc (h_lists hk) = l) ->
  forall rest done (h h' : Heap World) log n,
    l = done ++ rest ->
    after_validators ext done h0 = Some h ->
    after_validators ext rest h = Some h' ->
    length rest <= n ->
    for_list n loc (length done) (call_with_ns ext) (h, log)
    = (Ok tt, (h', log ++ map call_validator rest)).
Proof.
  intros Hkept. induction rest as [|v rest IH]; intros done h h' log n Hl Hdone Hrest Hn;
    rewrite for_list_unfold; unfold bind at 1, get_heap at 1; cbn [fst snd];
    rewrite (Hkept done _ h Hl Hdone); subst l.
  - rewrite app_nil_r, nth_error_end. simpl in Hrest. injection Hrest as <-.
    unfold ret. simpl. now rewrite app_nil_r.
  - rewrite nth_error_middle. destruct n as [|n]; [simpl in Hn; lia|].
    simpl in Hrest. destruct (callable v) eqn:Hc; [|discriminate].
    unfold bind. rewrite call_with_ns_run by exact Hc.
    destruct (ext (call_validator v) h) as [[r|e] h1] eqn:He; [|discriminate].
    assert (Hd : after_validators ext (done ++ [v]) h0 = Some h1).
    { rewrite after_validators_app, Hdone. simpl. now rewrite Hc, He. }
    replace (S (length done)) with (length (done ++ [v]))
      by (rewrite length_app; simpl; lia).
    rewrite (IH (done ++ [v]) h1 h' (log ++ [call_validator v]) n).
    + simpl. now rewrite <- app_assoc.
    + now rewrite <- app_assoc.
    + exact Hd.
    + exact Hrest.
    + simpl in Hn. lia.
Qed.

Lemma for_list_raises loc (l pre post : list Value) v (h0 h1 h2 : Heap World) e :
  l = pre ++ v :: post ->
  (forall d r hk, pre = d ++ r -> after_validators ext d h0 = Some hk ->
                  Lists.read loc (h_lists hk) = l) ->
  after_validators ext pre h0 = Some h1 ->
  callable v = true ->
  ext (call_validator v) h1 = (Raise e, h2) ->
  forall mid done (h : Heap World) log n,
    pre = done ++ mid ->
    after_validators ext done h0 = Some h ->
    length mid < n ->
    for_list n loc (length done) (call_with_ns ext) (h, log)
    = (Raise e, (h2, log ++ map call_validator (mid ++ [v]))).
Proof.
  intros Hl Hkept Hpre Hc He.
  induction mid as [|p mid IH]; intros done h log n Hsplit Hdone Hn;
    rewrite for_list_unfold; unfold bind at 1, get_heap at 1; cbn [fst snd];
    rewrite (Hkept done _ h Hsplit Hdone); rewrite Hl, Hsplit;
    destruct n as [|n]; try (simpl in Hn; lia).
  - rewrite app_nil_r in *. subst done. rewrite nth_error_middle.
    rewrite Hdone in Hpre. injection Hpre as ->.
    unfold bind. rewrite call_with_ns_run by exact Hc. now rewrite He.
  - rewrite <- app_assoc. simpl. rewrite nth_error_middle.
    assert (Hp : after_validators ext ((done ++ [p]) ++ mid) h0 = Some h1).
    { rewrite <- app_assoc. simpl. now rewrite <- Hsplit. }
    rewrite after_validators_app in Hp.
    destruct (after_validators ext (done ++ [p]) h0) as [hp|] eqn:Hdp; [|discriminate].
    pose proof Hdp as Hdp'. rewrite after_validators_app, Hdone in Hdp'. simpl in Hdp'.
    destruct (callable p) eqn:Hcp; [|discriminate].
    unfold bind. rewrite call_with_ns_run by exact Hcp.
    destruct (ext (call_validator p) h) as [[r|e'] h'] eqn:Hep; [|discriminate].
    injection Hdp' as ->.
    replace (S (length done)) with (length (done ++ [p]))
      by (rewrite length_app; simpl; lia).
    rewrite (IH (done ++ [p]) hp (log ++ [call_validator p]) n).
    + simpl. now rewrite <- app_assoc.
    + rewrite Hsplit. now rewrite <- app_assoc.
    + exact Hdp.
    + simpl in Hn. lia.
Qed.


(** What [list_kept] says of the splits of the list. *)
Lemma list_kept_split loc (l vs : list Value) (h0 : Heap World) :
  Lists.read loc (h_lists h0) = l ->
  list_kept ext loc vs h0 ->
  forall d r hk, vs = d ++ r -> after_validators ext d h0 = Some hk ->
                 Lists.read loc (h_lists hk) = l.
Proof.
  intros Hl Hkept d r hk Hsplit Hd. rewrite <- Hl.
  apply (Hkept (length d)). rewrite Hsplit, firstn_length_app. exact Hd.
Qed.

(** The [except] clauses of [_validation], run on an error [e]. *)
Lemma validation_handler_run (h h' : Heap World) log log' e :
  validation_try ext fuel (h, log) = (Raise e, (h', log')) ->
  _validation ext self_parser fuel (h, log)
  = match e with
    | Exception _ msg =>
        let a := validation_error (error_parser self_parser h') msg in
        match ext a h' with
        | (Ok _, h2) => (Ok tt, (h2, log' ++ [a]))
        | (Raise e2, h2) => (Raise e2, (h2, log' ++ [a]))
        end
    | _ => (Raise e, (h', log'))
    end.
Proof.
  intros Hb. unfold _validation, try_except. rewrite Hb.
  destruct e as [m|t m|t m|]; try reflexivity.
  unfold validation_except, bind, get_ns, get_heap, ret, perform, error_parser. simpl.
  now destruct (ext _ h') as [[r|e2] h2].
Qed.

Lemma validation_returns (h h' : Heap World) log log' :
  validation_try ext fuel (h, log) = (Ok tt, (h', log')) ->
  _validation ext self_parser fuel (h, log) = (Ok tt, (h', log')).
Proof. intros Hb. unfold _validation, try_except. now rewrite Hb. Qed.


(** The body of [_validation] in command mode. *)
Lemma validation_body_cmd v (h : Heap World) log :
  PyDict.get "_command_validator" (h_ns h) = Some v ->
  truthy (h_lists h) v = true ->
  callable v = true ->
  validation_try ext fuel (h, log)
  = match ext (call_validator v) h with
    | (Ok _, h') =>
        (Ok tt, (set_ns (PyDict.remove "_command_validator" (h_ns h')) h',
                 log ++ [call_validator v]))
    | (Raise e, h') => (Raise e, (h', log ++ [call_validator v]))
    end.
Proof.
  intros Hv Ht Hc. unfold validation_try.
  unfold bind at 1. unfold get_ns at 1. unfold bind at 1, get_heap at 1, ret at 1. simpl.
  rewrite Hv. unfold bind at 1. unfold is_true at 1, bind at 1, get_heap at 1, ret at 1.
  simpl. rewrite Ht.
  unfold _validate_cmd_level, bind at 1. unfold is_true at 1, bind at 1, get_heap, ret.
  simpl. rewrite Ht. unfold bind at 1.
  rewrite call_with_ns_run by exact Hc.
  destruct (ext (call_validator v) h) as [[r|e] h']; [|reflexivity].
  apply delattr_if_present_run.
Qed.

(** The body of [_validation] in argument mode, up to the loop. *)
Lemma validation_body_loop lst (h : Heap World) log :
  truthy (h_lists h)
    (match PyDict.get "_command_validator" (h_ns h) with Some v => v | None => VNone end)
  = false ->
  PyDict.get "_argument_validators" (h_ns h) = Some lst ->
  validation_try ext fuel (h, log)
  = bind (for_in fuel lst (call_with_ns ext))
      (fun _ => delattr_if_present "_argument_validators") (h, log).
Proof.
  intros Ht Hl. unfold validation_try.
  unfold bind at 1. unfold get_ns at 1. unfold bind at 1, get_heap at 1, ret at 1. simpl.
  unfold bind at 1. unfold is_true at 1, bind at 1, get_heap at 1, ret at 1.
  simpl. rewrite Ht.
  unfold _validate_arg_level, bind at 1. unfold get_ns at 1, bind at 1, get_heap at 1, ret at 1.
  simpl. rewrite Hl. reflexivity.
Qed.

Lemma validation_body_arg loc (h : Heap World) log :
  truthy (h_lists h)
    (match PyDict.get "_command_validator" (h_ns h) with Some v => v | None => VNone end)
  = false ->
  PyDict.get "_argument_validators" (h_ns h) = Some (VList loc) ->
  validation_try ext fuel (h, log)
  = bind (for_list fuel loc 0 (call_with_ns ext))
      (fun _ => delattr_if_present "_argument_validators") (h, log).
Proof. intros Ht Hl. now rewrite (validation_body_loop (VList loc) h log Ht Hl). Qed.

(** A pass in argument mode over a list that the validators leave as it is
    and that all return. *)
Lemma validation_arg_returns loc (h h' : Heap World) log :
  truthy (h_lists h)
    (match PyDict.get "_command_validator" (h_ns h) with Some v => v | None => VNone end)
  = false ->
  PyDict.get "_argument_validators" (h_ns h) = Some (VList loc) ->
  list_kept ext loc (Lists.read loc (h_lists h)) h ->
  after_validators ext (Lists.read loc (h_lists h)) h = Some h' ->
  length (Lists.read loc (h_lists h)) <= fuel ->
  _validation ext self_parser fuel (h, log)
  = (Ok tt, (set_ns (PyDict.remove "_argument_validators" (h_ns h')) h',
             log ++ map call_validator (Lists.read loc (h_lists h)))).
Proof.
  intros Ht Hl Hkept Hall Hfuel. apply validation_returns.
  rewrite (validation_body_arg loc h log Ht Hl). unfold bind.
  pose proof (for_list_returns loc (Lists.read loc (h_lists h)) h
                (list_kept_split loc _ _ h eq_refl Hkept)
                (Lists.read loc (h_lists h)) [] h h' log fuel eq_refl eq_refl Hall Hfuel)
    as E.
  simpl in E. rewrite E. apply delattr_if_present_run.
Qed.


End ValidationChain.

(** ** Errors raised by validators *)

Section ValidatorErrors.

Variable World : Type.
Variable ext : Action -> Heap World -> Result Value * Heap World.
Variable resolve : World -> string -> option Dict.
Variable self_parser : Value.
Variable fuel : nat.

(** The body of [_validation] when the validator [v] of the chain raises,
    those before it having returned and left the list as it is. *)
Lemma validation_try_raises (h h1 h2 : Heap World) log pre post v e :
  validators_to_run h = pre ++ v :: post ->
  (forall loc, PyDict.get "_argument_validators" (h_ns h) = Some (VList loc) ->
               list_kept ext loc pre h) ->
  after_validators ext pre h = Some h1 ->
  callable v = true ->
  ext (call_validator v) h1 = (Raise e, h2) ->
  length pre < fuel ->
  validation_try ext fuel (h, log)
  = (Raise e, (h2, log ++ map call_validator (pre ++ [v]))).
Proof.
  unfold validators_to_run. intros Hchain Hkept Hpre Hc He Hfuel.
  destruct (truthy (h_lists h) _) eqn:Ht.
  - destruct pre as [|p pre]; [|destruct pre; discriminate].
    injection Hchain as Hv _. simpl in Hpre. injection Hpre as <-.
    destruct (PyDict.get "_command_validator" (h_ns h)) as [v0|] eqn:Hv0;
      [|simpl in Ht; discriminate].
    subst v0. rewrite (validation_body_cmd World ext fuel v h log Hv0 Ht Hc).
    now rewrite He.
  - destruct (PyDict.get "_argument_validators" (h_ns h)) as [lst|] eqn:Hl;
      [|now destruct pre].
    rewrite (validation_body_loop World ext fuel lst h log Ht Hl).
    destruct lst; try (now destruct pre); unfold for_in, bind.
    + rewrite Hchain.
      now rewrite (for_each_raises World ext pre v post h h1 h2 e log Hpre Hc He).
    + pose proof (for_list_raises World ext loc (Lists.read loc (h_lists h)) pre post v
                    h h1 h2 e Hchain
                    (list_kept_split World ext loc _ pre h eq_refl (Hkept loc eq_refl))
                    Hpre Hc He pre [] h log fuel eq_refl eq_refl Hfuel) as E.
      simpl in E. now rewrite E.
Qed.

Lemma run_stage_raises cmd_tbl (s s' : State World) e :
  _validation ext self_parser fuel s = (Raise e, s') ->
  run_stage ext resolve self_parser fuel cmd_tbl s = (Raise e, s').
Proof. intros H. unfold run_stage, bind at 1. now rewrite H. Qed.

(** [execute] is its loading and parsing stages followed by [run_stage]. *)
Lemma execute_run_stage args cmd_tbl (h0 ha h : Heap World) log0 loga log :
  load_stage ext self_parser (set_args args h0, log0) = (Ok cmd_tbl, (ha, loga)) ->
  h_args ha <> [] ->
  parse_stage ext (ha, loga) = (Ok tt, (h, log)) ->
  execute ext resolve self_parser fuel args (h0, log0)
  = run_stage ext resolve self_parser fuel cmd_tbl (h, log).
Proof.
  intros Hload Hargs Hparse. unfold execute.
  unfold bind at 1, modify at 1. simpl.
  unfold bind at 1. rewrite Hload.
  unfold bind at 1, get_args at 1, bind at 1, get_heap at 1, ret at 1. simpl.
  destruct (h_args ha) as [|a rest]; [congruence|].
  unfold bind at 1. now rewrite Hparse.
Qed.

(** C5.  A validator of the chain raises [e], the validators before it
    having returned and left the list they are taken from as it is (so that
    the loop, which has a round for it, reaches it).  If [e] is a
    [CLIError], the validation raises that same error with nothing reported
    to a parser, and so does [execute].  If [e] is any other [Exception], it
    does not leave the validation: the validation calls [validation_error]
    with [str(e)], on the [_parser] of the namespace if it has one and on
    [self.parser] otherwise, and ends as that call ends; when the call
    raises, as a parser's error report does, [execute] ends with what it
    raised.  What [except Exception] does not catch passes through. *)
Theorem validator_error_conversion
    (h h1 h2 : Heap World) (log : list Action) (pre post : list Value) (v : Value) (e : Exc) :
  validators_to_run h = pre ++ v :: post ->
  (forall loc, PyDict.get "_argument_validators" (h_ns h) = Some (VList loc) ->
               list_kept ext loc pre h) ->
  after_validators ext pre h = Some h1 ->
  callable v = true ->
  ext (call_validator v) h1 = (Raise e, h2) ->
  length pre < fuel ->
  let log' := log ++ map call_validator (pre ++ [v]) in
  let report := validation_error (error_parser self_parser h2) (str_exc e) in
  match e with
  | CLIError _ =>
      _validation ext self_parser fuel (h, log) = (Raise e, (h2, log'))
      /\ (forall args cmd_tbl h0 ha log0 loga,
            load_stage ext self_parser (set_args args h0, log0) = (Ok cmd_tbl, (ha, loga)) ->
            h_args ha <> [] ->
            parse_stage ext (ha, loga) = (Ok tt, (h, log)) ->
            execute ext resolve self_parser fuel args (h0, log0) = (Raise e, (h2, log')))
  | Exception _ _ =>
      (forall r h3, ext report h2 = (Ok r, h3) ->
         _validation ext self_parser fuel (h, log) = (Ok tt, (h3, log' ++ [report])))
      /\ (forall e' h3, ext report h2 = (Raise e', h3) ->
            _validation ext self_parser fuel (h, log) = (Raise e', (h3, log' ++ [report]))
            /\ (forall args cmd_tbl h0 ha log0 loga,
                  load_stage ext self_parser (set_args args h0, log0) = (Ok cmd_tbl, (ha, loga)) ->
                  h_args ha <> [] ->
                  parse_stage ext (ha, loga) = (Ok tt, (h, log)) ->
                  execute ext resolve self_parser fuel args (h0, log0)
                  = (Raise e', (h3, log' ++ [report]))))
  | BaseException _ _ | OutOfFuel =>
      _validation ext self_parser fuel (h, log) = (Raise e, (h2, log'))
  end.
Proof.
  intros Hchain Hkept Hpre Hc He Hfuel log' report.
  pose proof (validation_try_raises h h1 h2 log pre post v e Hchain Hkept Hpre Hc He Hfuel)
    as Htry.
  pose proof (validation_handler_run World ext self_parser fuel h h2 log log' e Htry) as Hv.
  destruct e as [m|t m|t m|]; unfold report in *; cbn [str_exc] in *; cbv zeta in Hv.
  - split; [exact Hv|].
    intros args cmd_tbl h0 ha log0 loga Hload Hargs Hparse.
    rewrite (execute_run_stage args cmd_tbl h0 ha h log0 loga log Hload Hargs Hparse).
    now apply run_stage_raises.
  - split.
    + intros r h3 Hr. rewrite Hv. now rewrite Hr.
    + intros e' h3 Hr.
      assert (Hv' : _validation ext self_parser fuel (h, log)
                    = (Raise e', (h3, log' ++ [validation_error (error_parser self_parser h2) m]))).
      { rewrite Hv. now rewrite Hr. }
      split; [exact Hv'|].
      intros args cmd_tbl h0 ha log0 loga Hload Hargs Hparse.
      rewrite (execute_run_stage args cmd_tbl h0 ha h log0 loga log Hload Hargs Hparse).
      now apply run_stage_raises.
  - exact Hv.
  - exact Hv.
Qed.

End ValidatorErrors.

(** ** The order of events *)


Section Emits.

Variable World : Type.
Variable ext : Action -> Heap World -> Result Value * Heap World.

















End Emits.


Section EventOrder.

Variable World : Type.
Variable ext : Action -> Heap World -> Result Value * Heap World.
Variable resolve : World -> string -> option Dict.
Variable self_parser : Value.
Variable fuel : nat.











Lemma bind_ok {A B} (m : M World A) (k : A -> M World B) s b s' :
  bind m k s = (Ok b, s') -> exists a s1, m s = (Ok a, s1) /\ k a s1 = (Ok b, s').
Proof.
  unfold bind. destruct (m s) as [[a|e] s1]; [eauto | discriminate].
Qed.

Lemma perform_ok a (h : Heap World) log v s' :
  perform ext a (h, log) = (Ok v, s') ->
  exists h', ext a h = (Ok v, h') /\ s' = (h', log ++ [a]).
Proof.
  unfold perform. simpl. destruct (ext a h) as [r h'].
  intros H. injection H as -> <-. eauto.
Qed.

Lemma getattr_ok attr (s s' : State World) v :
  getattr attr s = (Ok v, s') -> s' = s.
Proof.
  unfold getattr, get_ns, bind, get_heap, ret, raise. simpl.
  destruct (PyDict.get attr (h_ns (fst s))); [congruence | discriminate].
Qed.

Lemma data_getitem_ok key (s s' : State World) v :
  data_getitem key s = (Ok v, s') ->
  h_event_data (fst s') = h_event_data (fst s).
Proof.
  unfold data_getitem, bind, get_heap, ret, raise, modify. simpl.
  destruct (PyDict.get key (items (h_data (fst s)))).
  - intros H. now injection H as _ <-.
  - destruct (is_defaultdict (h_data (fst s))); [|discriminate].
    intros H. now injection H as _ <-.
Qed.

(** The two result events work on one [event_data]: the subscribers of
    [filter-result] get the heap that those of [transform-result] left, and
    the payload of the item is the [result] found there afterwards. *)
Lemma result_stage_payload cmd_tbl params (s : State World) item h' log' :
  result_stage ext cmd_tbl params s = (Ok (Some item), (h', log')) ->
  exists v0 hT r1 h1 r2 h2,
    h_event_data hT = [("result", v0)]
    /\ ext (raise_event (EVENT_INVOKER_TRANSFORM_RESULT (h_event_data hT))) hT = (Ok r1, h1)
    /\ ext (raise_event (EVENT_INVOKER_FILTER_RESULT (h_event_data h1))) h1 = (Ok r2, h2)
    /\ PyDict.get "result" (h_event_data h2) = Some (result item)
    /\ h_event_data h' = h_event_data h2.
Proof.
  unfold result_stage. intros H.
  apply bind_ok in H. destruct H as [func [s1 [_ H]]].
  apply bind_ok in H. destruct H as [cmd_result [s2 [_ H]]].
  apply bind_ok in H. destruct H as [cmd_result' [s3 [_ H]]].
  apply bind_ok in H. destruct H as [[] [s4 [Hmod H]]].
  apply bind_ok in H. destruct H as [hT [s5 [HhT H]]].
  apply bind_ok in H. destruct H as [r1 [s6 [Htr H]]].
  apply bind_ok in H. destruct H as [h1 [s7 [Hh1 H]]].
  apply bind_ok in H. destruct H as [r2 [s8 [Hfi H]]].
  apply bind_ok in H. destruct H as [h2 [s9 [Hh2 H]]].
  apply bind_ok in H. destruct H as [res [s10 [Hres H]]].
  apply bind_ok in H. destruct H as [command [s11 [Hcmd H]]].
  apply bind_ok in H. destruct H as [hG [sG [HhG H]]].
  apply bind_ok in H. destruct H as [cmd [s12 [Hget H]]].
  apply bind_ok in H. destruct H as [tt' [s13 [Htt H]]].
  apply bind_ok in H. destruct H as [qa [s14 [Hqa H]]].
  unfold modify in Hmod. injection Hmod as <-.
  unfold get_heap in HhT. simpl in HhT. injection HhT as <- <-.
  destruct s3 as [h3 log3]. simpl in Htr.
  apply perform_ok in Htr. destruct Htr as [h1' [Htr ->]].
  unfold get_heap in Hh1. simpl in Hh1. injection Hh1 as <- <-.
  apply perform_ok in Hfi. destruct Hfi as [h2' [Hfi ->]].
  unfold get_heap in Hh2. simpl in Hh2. injection Hh2 as <- <-.
  destruct (PyDict.get "result" (h_event_data h2')) as [v|] eqn:Hv; [|discriminate].
  unfold ret in Hres. injection Hres as <- <-.
  apply getattr_ok in Hcmd. subst s11.
  unfold get_heap in HhG. injection HhG as _ <-.
  unfold lift in Hget, Htt. injection Hget as _ <-. injection Htt as _ <-.
  apply data_getitem_ok in Hqa. simpl in Hqa.
  unfold ret in H. injection H as Hitem Hs14. subst item s14. simpl in Hqa.
  exists cmd_result', (set_event_data [("result", cmd_result')] h3), r1, h1', r2, h2'.
  repeat split; try assumption.
Qed.





End EventOrder.

(** ** The run without arguments *)

Section EmptyRun.

Variable World : Type.
Variable ext : Action -> Heap World -> Result Value * Heap World.
Variable resolve : World -> string -> option Dict.
Variable self_parser : Value.
Variable fuel : nat.

Hypothesis args_untouched : forall a h, h_args (snd (ext a h)) = h_args h.

Ltac call_ext :=
  match goal with
  | |- context [ext ?a ?hh] =>
      let E := fresh "E" in
      let Ha := fresh "Ha" in
      pose proof (args_untouched a hh) as Ha;
      destruct (ext a hh) as [[?v|?e] ?h'] eqn:E;
      cbn [fst snd h_args set_args] in Ha |- *
  end.



End EmptyRun.

(** ** Runs of the example *)

Example vm_create_implicit :
  implicit_deprecation scripted_resolve vm_script "vm create"
  = Ok (Some (VImplicitDeprecated vm_implicit_kwargs)).
Proof. reflexivity. Qed.

Example vm_create_run :
  fst (run None vm_script ["VM"; "Create"; "--name"; "box"])
  = Ok (Some (mkCommandResultItem (VDict [("name", VStr "box")]) VNone VNone)).
Proof. vm_compute. reflexivity. Qed.

Example vm_create_hooks :
  fst (run None vm_script_hooks ["vm"; "create"; "--name"; "box"])
  = Ok (Some (mkCommandResultItem (VDict [("a", VInt 1); ("b", VInt 2)]) VNone VNone)).
Proof. vm_compute. reflexivity. Qed.

Example vm_create_clierror :
  fst (run None vm_script_clierror ["vm"; "create"; "--name"; "box"])
  = Raise (CLIError "name is taken")
  /\ validator_calls (snd (snd (run None vm_script_clierror ["vm"; "create"; "--name"; "box"])))
     = [VFunc 20; VFunc 21]
  /\ printed (snd (snd (run None vm_script_clierror ["vm"; "create"; "--name"; "box"])))
     = [].
Proof. vm_compute. repeat split. Qed.

Example vm_create_fault :
  validator_calls (snd (snd (run None vm_script_fault ["vm"; "create"])))
  = [VFunc 20; VFunc 21]
  /\ In (validation_error (VObj 2) "bad name")
        (snd (snd (run None vm_script_fault ["vm"; "create"]))).
Proof. vm_compute. split; [reflexivity | tauto]. Qed.

(** ** The help token *)

Lemma lower_help_not_option first :
  Str.lower first = "help" -> starts_option first = false.
Proof.
  destruct first as [|c rest]; simpl; [discriminate|].
  intros H. injection H as Hc _.
  destruct (Ascii.eqb_spec c "-") as [->|]; [discriminate | reflexivity].
Qed.

(** C8, as the claim states it, fails: the two runs differ before the token
    is rewritten.  On [["help"]] the loader is asked for the arguments of the
    command [help], on [["--help"]] for those of the command with the empty
    name, and [load_command_table] and the first event receive the argument
    list as it was passed. *)
Lemma help_runs_differ :
  snd (snd (run None vm_script ["help"])) <> snd (snd (run None vm_script ["--help"]))
  /\ In (load_arguments "help") (snd (snd (run None vm_script ["help"])))
  /\ In (load_arguments "") (snd (snd (run None vm_script ["--help"]))).
Proof.
  vm_compute. repeat split; [discriminate | tauto | tauto].
Qed.

Lemma bind_same_start {World A B} (m : M World A) (k : A -> M World B) s1 s2 :
  m s1 = m s2 -> bind m k s1 = bind m k s2.
Proof. unfold bind. now intros ->. Qed.

Section LogBlind.

Variable World : Type.
Variable ext : Action -> Heap World -> Result Value * Heap World.

Lemma blind_same_log {A} (m : M World A) :
  (forall h l, m (h, l) = (fst (m (h, [])), (fst (snd (m (h, []))), l))) -> log_blind m.
Proof.
  intros H h l1 l2. exists (fst (m (h, []))), (fst (snd (m (h, [])))), [].
  rewrite !app_nil_r. now rewrite (H h l1), (H h l2).
Qed.

Lemma blind_ret {A} (a : A) : log_blind (ret (World:=World) a).
Proof. now apply blind_same_log. Qed.

Lemma blind_raise {A} e : log_blind (raise (World:=World) (A:=A) e).
Proof. now apply blind_same_log. Qed.

Lemma blind_lift {A} (r : Result A) : log_blind (lift (World:=World) r).
Proof. now apply blind_same_log. Qed.

Lemma blind_get_heap : log_blind (get_heap (World:=World)).
Proof. now apply blind_same_log. Qed.

Lemma blind_modify f : log_blind (modify (World:=World) f).
Proof. now apply blind_same_log. Qed.

Lemma blind_perform a : log_blind (perform ext a).
Proof.
  intros h l1 l2. unfold perform. simpl. destruct (ext a h) as [r h'].
  exists r, h', [a]. now split.
Qed.

Lemma blind_bind {A B} (m : M World A) (k : A -> M World B) :
  log_blind m -> (forall a, log_blind (k a)) -> log_blind (bind m k).
Proof.
  intros Hm Hk h l1 l2. destruct (Hm h l1 l2) as [r [h' [t1 [E1 E2]]]].
  unfold bind. rewrite E1, E2. destruct r as [a|e].
  - destruct (Hk a h' (l1 ++ t1) (l2 ++ t1)) as [r2 [h2 [t2 [F1 F2]]]].
    exists r2, h2, (t1 ++ t2). rewrite F1, F2. now rewrite !app_assoc.
  - exists (Raise e), h', t1. now split.
Qed.

Lemma blind_try_except {A} (body : M World A) handler :
  log_blind body -> (forall e, log_blind (handler e)) -> log_blind (try_except body handler).
Proof.
  intros Hb Hh h l1 l2. destruct (Hb h l1 l2) as [r [h' [t1 [E1 E2]]]].
  unfold try_except. rewrite E1, E2. destruct r as [a|e].
  - exists (Ok a), h', t1. now split.
  - destruct (Hh e h' (l1 ++ t1) (l2 ++ t1)) as [r2 [h2 [t2 [F1 F2]]]].
    exists r2, h2, (t1 ++ t2). rewrite F1, F2. now rewrite !app_assoc.
Qed.

Lemma blind_for_each {A} (l : list A) (body : A -> M World unit) :
  (forall x, log_blind (body x)) -> log_blind (for_each l body).
Proof.
  intros Hb. induction l as [|x l IH]; simpl.
  - apply blind_ret.
  - apply blind_bind; [apply Hb | intros _; exact IH].
Qed.

Lemma blind_for_list n loc (body : Value -> M World unit) :
  (forall x, log_blind (body x)) -> forall i, log_blind (for_list n loc i body).
Proof.
  intros Hb. induction n as [|n IH]; intros i; simpl;
    (apply blind_bind; [apply blind_get_heap | intros h]);
    destruct (nth_error _ i); try apply blind_ret; [apply blind_raise|].
  apply blind_bind; [apply Hb | intros _; apply IH].
Qed.

Lemma blind_for_in n v (body : Value -> M World unit) :
  (forall x, log_blind (body x)) -> log_blind (for_in n v body).
Proof.
  intros Hb.
  destruct v; simpl; try apply blind_raise; try (apply blind_for_each; exact Hb).
  apply blind_for_list; exact Hb.
Qed.

End LogBlind.

Ltac blinds :=
  repeat first
    [ apply blind_ret | apply blind_raise | apply blind_lift
    | apply blind_get_heap | apply blind_modify | apply blind_perform
    | apply blind_bind; [ | intros ? ]
    | apply blind_try_except; [ | intros ? ]
    | apply blind_for_each; intros ?
    | apply blind_for_in; intros ?
    | match goal with
      | |- log_blind (match ?x with _ => _ end) => destruct x
      end ].

Section HelpToken.

Variable World : Type.
Variable ext : Action -> Heap World -> Result Value * Heap World.
Variable resolve : World -> string -> option Dict.
Variable self_parser : Value.
Variable fuel : nat.

Hypothesis args_untouched : forall a h, h_args (snd (ext a h)) = h_args h.

(** Parsing and all that follows it do not read the log. *)
Lemma blind_from_parsing cmd_tbl :
  log_blind (bind (parse_stage ext) (fun _ => run_stage ext resolve self_parser fuel cmd_tbl)).
Proof.
  unfold parse_stage, run_stage, _validation, validation_try, validation_except,
    _validate_cmd_level, _validate_arg_level, delattr_if_present, delattr, is_true,
    collect_deprecations, print_deprecations, result_stage, new_list, append,
    data_setitem, data_getitem, getattr, get_ns, get_args.
  blinds; unfold call_with_ns; blinds.
Qed.

(** A loading stage that returns: what it asked of the collaborators, and
    the argument list as the command-name heuristic left it. *)
Lemma load_stage_returns args (h0 h1 : Heap World) log0 log1 cmd_tbl :
  load_stage ext self_parser (set_args args h0, log0) = (Ok cmd_tbl, (h1, log1)) ->
  h_args h1 = snd (scan_nouns args)
  /\ log1 = log0 ++ [ raise_event (EVENT_INVOKER_PRE_CMD_TBL_CREATE args);
                      load_command_table args;
                      load_arguments (Str.join " " (fst (scan_nouns args)));
                      raise_event (EVENT_INVOKER_POST_CMD_TBL_CREATE cmd_tbl);
                      parser_load_command_table;
                      raise_event (EVENT_INVOKER_CMD_TBL_LOADED self_parser) ].
Proof.
  unfold load_stage, _rudimentary_get_command, get_args. intros H.
  apply bind_ok in H. destruct H as [a0 [s1 [Ha0 H]]].
  unfold bind, get_heap, ret in Ha0. simpl in Ha0. injection Ha0 as <- <-.
  apply bind_ok in H. destruct H as [r1 [s2 [Hp1 H]]].
  apply perform_ok in Hp1. destruct Hp1 as [g1 [E1 ->]].
  pose proof (args_untouched (raise_event (EVENT_INVOKER_PRE_CMD_TBL_CREATE args))
                (set_args args h0)) as A1.
  rewrite E1 in A1. simpl in A1.
  apply bind_ok in H. destruct H as [a1 [s3 [Ha1 H]]].
  unfold bind, get_heap, ret in Ha1. simpl in Ha1. injection Ha1 as <- <-.
  rewrite A1 in H.
  apply bind_ok in H. destruct H as [tbl [s4 [Hp2 H]]].
  apply perform_ok in Hp2. destruct Hp2 as [g2 [E2 ->]].
  pose proof (args_untouched (load_command_table args) g1) as A2.
  rewrite E2 in A2. simpl in A2.
  apply bind_ok in H. destruct H as [command [s5 [Hcmd H]]].
  unfold bind, get_heap, ret, modify in Hcmd. simpl in Hcmd. rewrite A2, A1 in Hcmd.
  destruct (scan_nouns args) as [nouns args'] eqn:Hscan. simpl in Hcmd.
  injection Hcmd as <- <-.
  apply bind_ok in H. destruct H as [r3 [s6 [Hp3 H]]].
  apply perform_ok in Hp3. destruct Hp3 as [g3 [E3 ->]].
  pose proof (args_untouched (load_arguments (Str.join " " nouns)) (set_args args' g2)) as A3.
  rewrite E3 in A3. simpl in A3.
  apply bind_ok in H. destruct H as [r4 [s7 [Hp4 H]]].
  apply perform_ok in Hp4. destruct Hp4 as [g4 [E4 ->]].
  pose proof (args_untouched (raise_event (EVENT_INVOKER_POST_CMD_TBL_CREATE tbl)) g3) as A4.
  rewrite E4 in A4. simpl in A4.
  apply bind_ok in H. destruct H as [r5 [s8 [Hp5 H]]].
  apply perform_ok in Hp5. destruct Hp5 as [g5 [E5 ->]].
  pose proof (args_untouched parser_load_command_table g4) as A5.
  rewrite E5 in A5. simpl in A5.
  apply bind_ok in H. destruct H as [r6 [s9 [Hp6 H]]].
  apply perform_ok in Hp6. destruct Hp6 as [g6 [E6 ->]].
  pose proof (args_untouched (raise_event (EVENT_INVOKER_CMD_TBL_LOADED self_parser)) g5) as A6.
  rewrite E6 in A6. simpl in A6.
  unfold ret in H. injection H as <- <- <-. simpl. split.
  - now rewrite A6, A5, A4, A3.
  - now rewrite <- !app_assoc.
Qed.

(** From a loading stage that returned, [execute] goes on with parsing and
    the rest, on the argument list with a first token [help] rewritten. *)
Lemma execute_from_parsing args first rest' cmd_tbl (h0 h1 : Heap World) log0 log1 :
  load_stage ext self_parser (set_args args h0, log0) = (Ok cmd_tbl, (h1, log1)) ->
  h_args h1 = first :: rest' ->
  normalize_help (first :: rest') = "--help" :: rest' ->
  execute ext resolve self_parser fuel args (h0, log0)
  = bind (parse_stage ext) (fun _ => run_stage ext resolve self_parser fuel cmd_tbl)
      (set_args ("--help" :: rest') h1, log1).
Proof.
  intros Hload Hargs Hnorm. unfold execute.
  unfold bind at 1, modify at 1. cbn [fst snd].
  unfold bind at 1. rewrite Hload.
  unfold bind at 1, get_args at 1, bind at 1, get_heap at 1, ret at 1. cbn [fst snd].
  rewrite Hargs. cbv iota. apply bind_same_start.
  unfold parse_stage. apply bind_same_start.
  unfold modify. cbn [fst snd h_args set_args]. now rewrite Hargs, Hnorm.
Qed.

(** C8, amended.  A first token that is [help] in any letter case is
    rewritten to [--help] after the command table has been loaded.  The
    loading stage gets the token as it was passed: the first event and
    [load_command_table] receive the list as passed, and [load_arguments]
    the command name that starts with [help], where the run on [--help] asks
    for the arguments of the command with the empty name.  By then the
    heuristic has put [first] and the tokens of [rest] before the first
    option in lower case; [rest'] is [rest] so changed, and [rest] itself
    when it is empty or starts with an option.  When the two loading stages
    return the same table and leave the same heap, the argument list apart,
    the run on [first :: rest] and the run on ["--help" :: rest'] are one
    from there on: the same calls in the same order after loading, the same
    outcome, the same heap at the end. *)
Theorem help_token_normalized
    (first : string) (rest : list string) (h0 h1 h2 : Heap World)
    (log0 log1 log2 : list Action) (cmd_tbl : Value) :
  Str.lower first = "help" ->
  load_stage ext self_parser (set_args (first :: rest) h0, log0)
  = (Ok cmd_tbl, (h1, log1)) ->
  load_stage ext self_parser (set_args ("--help" :: snd (scan_nouns rest)) h0, log0)
  = (Ok cmd_tbl, (h2, log2)) ->
  set_args [] h1 = set_args [] h2 ->
  normalize_help (first :: rest) = "--help" :: rest
  /\ In (load_command_table (first :: rest)) log1
  /\ In (load_arguments (Str.join " " ("help" :: fst (scan_nouns rest)))) log1
  /\ In (load_arguments "") log2
  /\ exists r h' tail,
       execute ext resolve self_parser fuel (first :: rest) (h0, log0)
       = (r, (h', log1 ++ tail))
       /\ execute ext resolve self_parser fuel ("--help" :: snd (scan_nouns rest)) (h0, log0)
          = (r, (h', log2 ++ tail)).
Proof.
  intros Hlow Hload1 Hload2 Hsame.
  pose proof (lower_help_not_option first Hlow) as Hopt.
  destruct (load_stage_returns _ _ _ _ _ _ Hload1) as [Ha1 Hl1].
  destruct (load_stage_returns _ _ _ _ _ _ Hload2) as [Ha2 Hl2].
  simpl in Ha1, Hl1, Ha2, Hl2. rewrite Hopt in Ha1, Hl1.
  destruct (scan_nouns rest) as [nouns rest'] eqn:Hscan. simpl in *.
  rewrite Hlow in Ha1, Hl1.
  split; [unfold normalize_help; now rewrite Hlow|].
  split; [rewrite Hl1, in_app_iff; simpl; tauto|].
  split; [rewrite Hl1, in_app_iff; simpl; tauto|].
  split; [rewrite Hl2, in_app_iff; simpl; tauto|].
  rewrite (execute_from_parsing (first :: rest) "help" rest' cmd_tbl h0 h1 log0 log1
             Hload1 Ha1 eq_refl).
  rewrite (execute_from_parsing ("--help" :: rest') "--help" rest' cmd_tbl h0 h2 log0 log2
             Hload2 Ha2 eq_refl).
  assert (Hheap : set_args ("--help" :: rest') h2 = set_args ("--help" :: rest') h1).
  { destruct h1, h2. unfold set_args in *. simpl in *. now injection Hsame as -> -> -> -> ->. }
  rewrite Hheap.
  apply (blind_from_parsing cmd_tbl (set_args ("--help" :: rest') h1) log1 log2).
Qed.

End HelpToken.

(** ** Deprecation warnings *)

Lemma read_set loc items ls : Lists.read loc (Lists.set loc items ls) = items.
Proof.
  unfold Lists.read. induction ls as [|[l old] ls IH]; simpl.
  - now rewrite Nat.eqb_refl.
  - destruct (Nat.eqb_spec loc l) as [->|Hne]; simpl.
    + now rewrite Nat.eqb_refl.
    + destruct (Nat.eqb_spec loc l); [congruence | exact IH].
Qed.



Section Warnings.

Variable World : Type.
Variable ext : Action -> Heap World -> Result Value * Heap World.
Variable resolve : World -> string -> option Dict.
Variable self_parser : Value.
Variable fuel : nat.

Lemma set_lists_same (h : Heap World) : set_lists (h_lists h) h = h.
Proof. now destruct h. Qed.

(** What [collect_deprecations] does when the namespace has an
    [_argument_deprecations] list: it appends to that very list object. *)
Lemma collect_deprecations_run (h : Heap World) log name info tt loc implicit :
  PyDict.get "func" (h_ns h) = Some (VCommand name info tt) ->
  PyDict.get "_argument_deprecations" (h_ns h) = Some (VList loc) ->
  implicit_deprecation resolve (h_world h) name = Ok implicit ->
  exists ls',
    collect_deprecations resolve (h, log) = (Ok (VList loc), (set_lists ls' h, log))
    /\ Lists.read loc ls'
       = Lists.read loc (h_lists h) ++ command_warnings (h_lists h) info implicit.
Proof.
  intros Hfunc Hlist Himp.
  unfold collect_deprecations, getattr, get_ns, is_true, append, command_warnings,
    bind, get_heap, ret, lift, modify.
  cbn [fst snd]. rewrite Hfunc. cbn [fst snd cmd_deprecate_info cmd_name]. rewrite Hlist.
  cbn [fst snd h_world h_lists set_lists].
  destruct (truthy (h_lists h) info); cbn [fst snd h_world h_lists set_lists];
    rewrite Himp; destruct implicit as [d|]; cbn [fst snd h_world h_lists set_lists].
  - eexists. split; [reflexivity|]. now rewrite !read_set, <- app_assoc.
  - eexists. split; [reflexivity|]. now rewrite !read_set.
  - eexists. split; [reflexivity|]. now rewrite !read_set.
  - exists (h_lists h). rewrite set_lists_same, app_nil_r. now split.
Qed.

Hypothesis frame : forall a h,
  h_ns (snd (ext a h)) = h_ns h
  /\ h_lists (snd (ext a h)) = h_lists h
  /\ h_world (snd (ext a h)) = h_world h.



Lemma fresh_not_allocated ls : Lists.get (Lists.fresh ls) ls = None.
Proof.
  unfold Lists.fresh.
  assert (H : forall n, list_max (map fst ls) < n -> Lists.get n ls = None).
  { induction ls as [|[l items] ls' IH]; simpl; intros n Hn; [reflexivity|].
    destruct (Nat.eqb_spec n l); [lia | apply IH; lia]. }
  apply H. lia.
Qed.

Lemma get_set_fresh ls l :
  match Lists.get l (Lists.set (Lists.fresh ls) [] ls) with
  | Some (_ :: _) => true
  | _ => false
  end
  = match Lists.get l ls with Some (_ :: _) => true | _ => false end.
Proof.
  pose proof (fresh_not_allocated ls) as Hf. revert Hf.
  generalize (Lists.fresh ls) as f. intros f.
  induction ls as [|[l0 items] ls' IH]; simpl; intros Hf.
  - now destruct (Nat.eqb l f).
  - destruct (Nat.eqb_spec f l0); [discriminate|]. simpl.
    destruct (Nat.eqb l l0); [reflexivity | now apply IH].
Qed.

Lemma truthy_set_fresh ls v :
  truthy (Lists.set (Lists.fresh ls) [] ls) v = truthy ls v.
Proof. destruct v; simpl; try reflexivity. apply get_set_fresh. Qed.


Lemma preserves_same_heap {A} J (m : M World A) :
  (forall s, fst (snd (m s)) = fst s) -> preserves J m.
Proof. intros H s Hs. now rewrite H. Qed.

Lemma preserves_ret {A} J (a : A) : preserves J (ret (World:=World) a).
Proof. now apply preserves_same_heap. Qed.

Lemma preserves_raise {A} J e : preserves J (raise (World:=World) (A:=A) e).
Proof. now apply preserves_same_heap. Qed.

Lemma preserves_lift {A} J (r : Result A) : preserves J (lift (World:=World) r).
Proof. now apply preserves_same_heap. Qed.

Lemma preserves_get_heap J : preserves J (get_heap (World:=World)).
Proof. now apply preserves_same_heap. Qed.

Lemma preserves_modify J (f : Heap World -> Heap World) :
  (forall h, J h -> J (f h)) -> preserves J (modify f).
Proof. intros H s Hs. simpl. now apply H. Qed.

Lemma preserves_bind {A B} J (m : M World A) (k : A -> M World B) :
  preserves J m -> (forall a, preserves J (k a)) -> preserves J (bind m k).
Proof.
  intros Hm Hk s Hs. unfold bind. specialize (Hm s Hs).
  destruct (m s) as [[a|e] s1]; [now apply Hk | exact Hm].
Qed.

Lemma preserves_try_except {A} J (body : M World A) handler :
  preserves J body -> (forall e, preserves J (handler e)) ->
  preserves J (try_except body handler).
Proof.
  intros Hb Hh s Hs. unfold try_except. specialize (Hb s Hs).
  destruct (body s) as [[a|e] s1]; [exact Hb | now apply Hh].
Qed.

Lemma preserves_for_each {A} J (l : list A) (body : A -> M World unit) :
  (forall x, preserves J (body x)) -> preserves J (for_each l body).
Proof.
  intros Hb. induction l as [|x l IH]; simpl.
  - apply preserves_ret.
  - apply preserves_bind; [apply Hb | intros _; exact IH].
Qed.

Lemma preserves_for_list J n loc (body : Value -> M World unit) :
  (forall x, preserves J (body x)) -> forall i, preserves J (for_list n loc i body).
Proof.
  intros Hb. induction n as [|n IH]; intros i; simpl;
    (apply preserves_bind; [apply preserves_get_heap | intros h]);
    destruct (nth_error _ i); try apply preserves_ret; [apply preserves_raise|].
  apply preserves_bind; [apply Hb | intros _; apply IH].
Qed.

Lemma preserves_for_in J n v (body : Value -> M World unit) :
  (forall x, preserves J (body x)) -> preserves J (for_in n v body).
Proof.
  intros Hb.
  destruct v; simpl; try apply preserves_raise; try (apply preserves_for_each; exact Hb).
  apply preserves_for_list; exact Hb.
Qed.

Lemma preserves_perform ls w func argdep a :
  preserves (warnings_view ls w func argdep) (perform ext a).
Proof.
  intros [h log] [Hl [Hw [Hf Ha]]]. unfold perform. simpl in *.
  destruct (frame a h) as [Hns [Hls Hwo]].
  destruct (ext a h) as [r h1]. simpl in *.
  unfold warnings_view. rewrite Hns, Hls, Hwo. auto.
Qed.

Lemma preserves_delattr ls w func argdep attr :
  attr <> "func" -> attr <> "_argument_deprecations" ->
  preserves (warnings_view ls w func argdep) (delattr_if_present (World:=World) attr).
Proof.
  intros H1 H2 [h log] [Hl [Hw [Hf Ha]]]. rewrite delattr_if_present_run.
  unfold warnings_view. simpl in *.
  rewrite !get_remove_other by congruence. auto.
Qed.

Ltac view_kept :=
  let h := fresh "h" in
  intros h [? [? [? ?]]]; unfold warnings_view;
  cbn [h_lists h_world h_ns set_ns set_data set_args set_event_data]; auto.

Ltac keeps :=
  repeat first
    [ apply preserves_ret | apply preserves_raise | apply preserves_lift
    | apply preserves_get_heap | apply preserves_perform
    | apply preserves_delattr; discriminate
    | apply preserves_modify; view_kept
    | apply preserves_bind; [ | intros ? ]
    | apply preserves_try_except; [ | intros ? ]
    | apply preserves_for_each; intros ?
    | apply preserves_for_in; intros ?
    | match goal with
      | |- preserves _ (match ?x with _ => _ end) => destruct x
      end ].

Lemma preserves_validation ls w func argdep :
  preserves (warnings_view ls w func argdep) (_validation ext self_parser fuel).
Proof.
  unfold _validation, validation_try, validation_except, _validate_cmd_level,
    _validate_arg_level, is_true, get_ns.
  keeps; unfold call_with_ns; keeps.
Qed.

Lemma preserves_print ls w func argdep d :
  preserves (warnings_view ls w func argdep) (print_deprecations ext fuel d).
Proof. unfold print_deprecations. keeps. Qed.

Lemma preserves_result_stage ls w func argdep cmd_tbl params :
  preserves (warnings_view ls w func argdep) (result_stage ext cmd_tbl params).
Proof.
  unfold result_stage, getattr, get_ns, data_getitem. keeps.
Qed.


(** C10.  The list that the warnings are appended to is the list object of
    the namespace's [_argument_deprecations] attribute, not a copy.  For a
    command with a deprecation [info] of its own in a deprecated group, with
    implicit descriptor [d]: collecting the warnings returns that very list
    object and leaves it holding the argument-level entries followed by
    [info] and [d]; and when the collaborators leave the namespace, the list
    objects and the registry alone, the namespace of a finished run still
    has the attribute, and its list ends with the two command-level
    entries. *)
Theorem argument_deprecations_mutated
    (h : Heap World) (log : list Action) (name : string) (info tt d : Value) (loc : nat) :
  PyDict.get "func" (h_ns h) = Some (VCommand name info tt) ->
  PyDict.get "_argument_deprecations" (h_ns h) = Some (VList loc) ->
  truthy (h_lists h) info = true ->
  implicit_deprecation resolve (h_world h) name = Ok (Some d) ->
  (exists ls',
      collect_deprecations resolve (h, log) = (Ok (VList loc), (set_lists ls' h, log))
      /\ Lists.read loc ls' = Lists.read loc (h_lists h) ++ [info; d])
  /\ (forall cmd_tbl r h' log',
        run_stage ext resolve self_parser fuel cmd_tbl (h, log) = (Ok r, (h', log')) ->
        PyDict.get "_argument_deprecations" (h_ns h') = Some (VList loc)
        /\ Lists.read loc (h_lists h') = Lists.read loc (h_lists h) ++ [info; d]).
Proof.
  intros Hfunc Hloc Htrue Himp. split.
  - destruct (collect_deprecations_run h log name info tt loc (Some d) Hfunc Hloc Himp)
      as [ls' [Hc Hread]].
    exists ls'. split; [exact Hc|].
    rewrite Hread. unfold command_warnings. now rewrite Htrue.
  - intros cmd_tbl r h' log' Hrun. unfold run_stage in Hrun.
    set (J := warnings_view (h_lists h) (h_world h)
                (Some (VCommand name info tt)) (Some (VList loc))).
    assert (J0 : J h) by (unfold J, warnings_view; auto).
    apply bind_ok in Hrun. destruct Hrun as [[] [s1 [Hval Hrun]]].
    pose proof (preserves_validation _ _ _ _ (h, log) J0) as J1.
    rewrite Hval in J1. simpl in J1.
    apply bind_ok in Hrun. destruct Hrun as [command [s2 [Hcmd Hrun]]].
    apply getattr_ok in Hcmd. subst s2.
    apply bind_ok in Hrun. destruct Hrun as [[] [s3 [Hset Hrun]]].
    unfold data_setitem, modify in Hset. injection Hset as <-.
    apply bind_ok in Hrun. destruct Hrun as [parsed_args [s4 [Hns Hrun]]].
    unfold get_ns, bind, get_heap, ret in Hns. simpl in Hns. injection Hns as _ <-.
    apply bind_ok in Hrun. destruct Hrun as [deprecations [s5 [Hcol Hrun]]].
    apply bind_ok in Hrun. destruct Hrun as [[] [s6 [Hprint Hrun]]].
    destruct s1 as [h1 log1]. simpl in *.
    destruct J1 as [Hl1 [Hw1 [Hf1 Ha1]]].
    set (h2 := set_data _ h1) in *.
    assert (Himp2 : implicit_deprecation resolve (h_world h2) name = Ok (Some d))
      by (unfold h2; simpl; now rewrite Hw1).
    destruct (collect_deprecations_run h2 log1 name info tt loc (Some d) Hf1 Ha1 Himp2)
      as [ls' [Hc Hread]].
    rewrite Hc in Hcol. injection Hcol as <- <-.
    assert (Hread' : Lists.read loc ls' = Lists.read loc (h_lists h) ++ [info; d]).
    { rewrite Hread. unfold h2, command_warnings. simpl. now rewrite Hl1, Htrue. }
    set (J' := warnings_view ls' (h_world h)
                 (Some (VCommand name info tt)) (Some (VList loc))).
    assert (J2 : J' (set_lists ls' h2)) by (unfold J', warnings_view, h2; simpl; auto).
    pose proof (preserves_print _ _ _ _ (VList loc) (set_lists ls' h2, log1) J2) as J3.
    rewrite Hprint in J3. simpl in J3.
    pose proof (preserves_result_stage _ _ _ _ cmd_tbl
                  (_filter_params parsed_args) s6 J3) as J4.
    rewrite Hrun in J4. simpl in J4.
    destruct J4 as [Hl4 [_ [_ Ha4]]]. split; [exact Ha4|]. now rewrite Hl4.
Qed.

End Warnings.


(** ** The invocation state *)

(** C9.  With the default state the run of the example returns an item
    whose query-active flag is [None], nothing having set [query_active].
    With an invoker built on a caller's plain dict the same run raises
    [KeyError('query_active')] when it builds the item, after the handler
    and both result events have run. *)
Theorem initial_data_query_active :
  fst (run None vm_script ["vm"; "create"; "--name"; "box"])
  = Ok (Some (mkCommandResultItem (VDict [("name", VStr "box")]) VNone VNone))
  /\ fst (run (Some plain_initial_data) vm_script ["vm"; "create"; "--name"; "box"])
     = Raise (KeyError "query_active")
  /\ events_raised
       (snd (snd (run (Some plain_initial_data) vm_script ["vm"; "create"; "--name"; "box"])))
     = event_order
  /\ PyDict.get "command" (items (__init__ (Some plain_initial_data)))
     = Some (VStr "unknown")
  /\ PyDict.get "command" (items (__init__ None)) = Some (VStr "unknown").
Proof. vm_compute. repeat split. Qed.

(** ** Instances *)

Lemma vm_namespace_wf : PyDict.wf vm_namespace.
Proof.
  unfold PyDict.wf. simpl.
  repeat (constructor; [simpl; intuition discriminate|]). constructor.
Defined.

Lemma filter_params_correct_witness :
  PyDict.wf vm_namespace
  /\ _filter_params vm_namespace = [("name", VStr "box")].
Proof.
  split; [exact vm_namespace_wf|].
  destruct (filter_params_correct vm_namespace vm_namespace_wf) as [H _].
  rewrite H. reflexivity.
Defined.

Lemma scripted_after_validators : forall vs (h hk : Heap Script),
  after_validators scripted vs h = Some hk -> hk = h.
Proof.
  induction vs as [|v vs IH]; simpl; intros h hk H; [congruence|].
  destruct (callable v); [|discriminate].
  destruct v; simpl in H; try (now apply IH).
  destruct (raising f (sc_raising (h_world h))); [discriminate | now apply IH].
Defined.

Lemma scripted_list_kept loc vs (h : Heap Script) : list_kept scripted loc vs h.
Proof. intros k hk H. apply scripted_after_validators in H. now subst. Defined.

Lemma passive_after_validators : forall vs (h hk : Heap unit),
  after_validators passive vs h = Some hk -> hk = h.
Proof.
  induction vs as [|v vs IH]; simpl; intros h hk H; [congruence|].
  destruct (callable v); [now apply IH | discriminate].
Defined.

Lemma passive_list_kept loc vs (h : Heap unit) : list_kept passive loc vs h.
Proof. intros k hk H. apply passive_after_validators in H. now subst. Defined.


Lemma validator_error_conversion_witness :
  validators_to_run vm_parsed_fault = [VFunc 20] ++ VFunc 21 :: []
  /\ list_kept scripted 0 [VFunc 20] vm_parsed_fault
  /\ after_validators scripted [VFunc 20] vm_parsed_fault = Some vm_parsed_fault
  /\ callable (VFunc 21) = true
  /\ scripted (call_validator (VFunc 21)) vm_parsed_fault
     = (Raise (Exception "ValueError" "bad name"), vm_parsed_fault)
  /\ length [VFunc 20] < 8
  /\ _validation scripted (VObj 0) 8 (vm_parsed_fault, [])
     = (Ok tt,
        (vm_parsed_fault,
         [ call_validator (VFunc 20); call_validator (VFunc 21);
           validation_error (VObj 2) "bad name" ])).
Proof.
  split; [reflexivity|]. split; [apply scripted_list_kept|].
  do 3 (split; [reflexivity|]). split; [simpl; lia|].
  pose proof (validator_error_conversion Script scripted scripted_resolve (VObj 0) 8
                vm_parsed_fault vm_parsed_fault vm_parsed_fault []
                [VFunc 20] [] (VFunc 21) (Exception "ValueError" "bad name")
                eq_refl (fun loc _ => scripted_list_kept loc [VFunc 20] vm_parsed_fault)
                eq_refl eq_refl eq_refl ltac:(simpl; lia)) as H.
  cbv zeta in H. destruct H as [H _].
  exact (H VNone vm_parsed_fault eq_refl).
Defined.



Lemma help_token_normalized_witness :
  (forall a (h : Heap unit), h_args (snd (passive a h)) = h_args h)
  /\ Str.lower "HeLp" = "help"
  /\ fst (load_stage passive (VObj 0) (set_args ["HeLp"] vm_parsed, []))
     = fst (load_stage passive (VObj 0) (set_args ["--help"] vm_parsed, []))
  /\ exists r h' tail,
       execute passive vm_registry (VObj 0) 8 ["HeLp"] (vm_parsed, [])
       = (r, (h', snd (snd (load_stage passive (VObj 0) (set_args ["HeLp"] vm_parsed, [])))
                  ++ tail))
       /\ execute passive vm_registry (VObj 0) 8 ["--help"] (vm_parsed, [])
          = (r, (h', snd (snd (load_stage passive (VObj 0) (set_args ["--help"] vm_parsed, [])))
                     ++ tail)).
Proof.
  split; [reflexivity|]. split; [reflexivity|]. split; [reflexivity|].
  exact (proj2 (proj2 (proj2 (proj2
           (help_token_normalized unit passive vm_registry (VObj 0) 8 (fun a h => eq_refl)
              "HeLp" [] vm_parsed
              (fst (snd (load_stage passive (VObj 0) (set_args ["HeLp"] vm_parsed, []))))
              (fst (snd (load_stage passive (VObj 0) (set_args ["--help"] vm_parsed, []))))
              []
              (snd (snd (load_stage passive (VObj 0) (set_args ["HeLp"] vm_parsed, []))))
              (snd (snd (load_stage passive (VObj 0) (set_args ["--help"] vm_parsed, []))))
              VNone eq_refl eq_refl eq_refl eq_refl))))).
Defined.

Lemma passive_frame : forall a (h : Heap unit),
  h_ns (snd (passive a h)) = h_ns h
  /\ h_lists (snd (passive a h)) = h_lists h
  /\ h_world (snd (passive a h)) = h_world h.
Proof. intros a h. repeat split. Defined.


Lemma argument_deprecations_mutated_witness :
  PyDict.get "func" (h_ns vm_parsed)
  = Some (VCommand "vm create" (VDeprecated vm_create_info) VNone)
  /\ PyDict.get "_argument_deprecations" (h_ns vm_parsed) = Some (VList 1)
  /\ truthy (h_lists vm_parsed) (VDeprecated vm_create_info) = true
  /\ implicit_deprecation vm_registry (h_world vm_parsed) "vm create"
     = Ok (Some (VImplicitDeprecated vm_implicit_kwargs))
  /\ exists ls',
       collect_deprecations vm_registry (vm_parsed, [])
       = (Ok (VList 1), (set_lists ls' vm_parsed, []))
       /\ Lists.read 1 ls'
          = [ VDeprecated name_info; VDeprecated vm_create_info;
              VImplicitDeprecated vm_implicit_kwargs ].
Proof.
  do 4 (split; [reflexivity|]).
  destruct (argument_deprecations_mutated unit passive vm_registry (VObj 0) 8 passive_frame
              vm_parsed [] "vm create" (VDeprecated vm_create_info) VNone
              (VImplicitDeprecated vm_implicit_kwargs) 1
              eq_refl eq_refl eq_refl eq_refl) as [[ls' [Hc Hread]] _].
  exists ls'. split; [exact Hc | exact Hread].
Defined.

(* ===================================================================== *)
(** * Further properties of the invoker *)
(* ===================================================================== *)

(** ** The command-name heuristic *)

Lemma lower_char_idempotent c : Str.lower_char (Str.lower_char c) = Str.lower_char c.
Proof. destruct c as [[] [] [] [] [] [] [] []]; reflexivity. Qed.

Lemma lower_idempotent s : Str.lower (Str.lower s) = Str.lower s.
Proof. induction s as [|c s IH]; simpl; [reflexivity|]. now rewrite lower_char_idempotent, IH. Qed.

Lemma lower_char_dash c : Ascii.eqb (Str.lower_char c) "-" = Ascii.eqb c "-".
Proof. destruct c as [[] [] [] [] [] [] [] []]; reflexivity. Qed.

Lemma starts_option_lower s : starts_option (Str.lower s) = starts_option s.
Proof. destruct s as [|c s]; simpl; [reflexivity | apply lower_char_dash]. Qed.

Lemma scan_nouns_all args :
  Forall (fun t => starts_option t = false) args ->
  scan_nouns args = (map Str.lower args, map Str.lower args).
Proof.
  induction 1 as [|t args Ht _ IH]; simpl; [reflexivity|].
  now rewrite Ht, IH.
Qed.

Lemma scan_nouns_until pre opt post :
  Forall (fun t => starts_option t = false) pre ->
  starts_option opt = true ->
  scan_nouns (pre ++ opt :: post) = (map Str.lower pre, map Str.lower pre ++ opt :: post).
Proof.
  intros Hpre Hopt. induction Hpre as [|t pre Ht _ IH]; simpl.
  - now rewrite Hopt.
  - now rewrite Ht, IH.
Qed.

(** Every argument list is a run of nouns followed by nothing or by an
    option and the rest. *)
Lemma nouns_then_option args :
  exists pre rest,
    args = pre ++ rest
    /\ Forall (fun t => starts_option t = false) pre
    /\ (rest = [] \/ exists opt post, rest = opt :: post /\ starts_option opt = true).
Proof.
  induction args as [|t args [pre [rest [E [Hpre Hrest]]]]].
  - exists [], []. repeat split; [constructor | now left].
  - destruct (starts_option t) eqn:Ht.
    + exists [], (t :: args). repeat split; [constructor | right; eauto].
    + exists (t :: pre), rest. subst args. repeat split; [now constructor | exact Hrest].
Qed.

Section Heuristic.

Variable World : Type.

(** X1.  [_rudimentary_get_command] on an argument list made of tokens
    [pre] that do not start with a dash followed by [rest], which is empty
    or starts with an option: the command is the tokens of [pre] in lower
    case joined by single spaces, and the argument list is left with those
    tokens in lower case and [rest], the first option and everything after
    it, exactly as passed. *)
Theorem rudimentary_get_command_run
    (h : Heap World) (log : list Action) (pre rest : list string) :
  h_args h = pre ++ rest ->
  Forall (fun t => starts_option t = false) pre ->
  (rest = [] \/ exists opt post, rest = opt :: post /\ starts_option opt = true) ->
  _rudimentary_get_command (h, log)
  = (Ok (Str.join " " (map Str.lower pre)),
     (set_args (map Str.lower pre ++ rest) h, log)).
Proof.
  intros Hargs Hpre Hrest.
  unfold _rudimentary_get_command, get_args, bind, get_heap, ret, modify. simpl.
  rewrite Hargs. destruct Hrest as [-> | [opt [post [-> Hopt]]]].
  - rewrite !app_nil_r. rewrite scan_nouns_all by exact Hpre. reflexivity.
  - rewrite scan_nouns_until by assumption. reflexivity.
Qed.

(** X2.  [_rudimentary_get_command] is idempotent: called again on the
    argument list it left, it returns the same command and leaves the list
    and the rest of the state as they are.  It never fails and never
    changes the number of arguments. *)
Theorem rudimentary_get_command_idempotent (s : State World) :
  exists command s1,
    _rudimentary_get_command s = (Ok command, s1)
    /\ _rudimentary_get_command s1 = (Ok command, s1)
    /\ length (h_args (fst s1)) = length (h_args (fst s)).
Proof.
  destruct s as [h log].
  destruct (nouns_then_option (h_args h)) as [pre [rest [E [Hpre Hrest]]]].
  rewrite (rudimentary_get_command_run h log pre rest E Hpre Hrest).
  eexists. eexists. split; [reflexivity|]. split.
  - rewrite (rudimentary_get_command_run _ log (map Str.lower pre) rest).
    + rewrite map_map. rewrite (map_ext _ _ lower_idempotent).
      destruct h; reflexivity.
    + reflexivity.
    + clear -Hpre. induction Hpre; simpl; constructor; auto.
      now rewrite starts_option_lower.
    + exact Hrest.
  - simpl. rewrite E. now rewrite !length_app, length_map.
Qed.

End Heuristic.

Lemma rudimentary_get_command_run_witness :
  h_args vm_parsed = ["vm"; "create"] ++ ["--name"; "box"]
  /\ _rudimentary_get_command (set_args ["VM"; "Create"; "--Name"; "Box"] vm_parsed, [])
     = (Ok "vm create", (set_args ["vm"; "create"; "--Name"; "Box"] vm_parsed, [])).
Proof.
  split; [reflexivity|].
  apply (rudimentary_get_command_run unit
           (set_args ["VM"; "Create"; "--Name"; "Box"] vm_parsed) []
           ["VM"; "Create"] ["--Name"; "Box"]).
  - reflexivity.
  - repeat constructor.
  - right. exists "--Name", ["Box"]. split; reflexivity.
Defined.

(** ** The invocation state at construction *)

(** X3.  Whatever [initial_data] is, the state built by [__init__] maps
    [command] to the string [unknown], overwriting an entry of the caller
    for that key, and keeps every other entry of the caller's mapping.  A
    mapping with entries is used as it is, plain or with a default; without
    [initial_data], or with an empty one, the state is a mapping that reads
    unknown keys as [None]. *)
Theorem init_state (initial_data : option InvData) :
  PyDict.get "command" (items (__init__ initial_data)) = Some (VStr "unknown")
  /\ (forall d k, initial_data = Some d -> k <> "command" ->
        PyDict.get k (items (__init__ initial_data)) = PyDict.get k (items d))
  /\ (forall d, initial_data = Some d -> items d <> [] ->
        is_defaultdict (__init__ initial_data) = is_defaultdict d)
  /\ ((initial_data = None \/ exists d, initial_data = Some d /\ items d = []) ->
        __init__ initial_data = mkInvData true [("command", VStr "unknown")]).
Proof.
  repeat split.
  - unfold __init__. simpl. rewrite get_set. now rewrite String.eqb_refl.
  - intros d k -> Hk. unfold __init__. simpl. rewrite get_set.
    destruct (String.eqb_spec k "command"); [congruence|].
    destruct (items d) eqn:E; [reflexivity | now rewrite E].
  - intros d -> Hne. unfold __init__. destruct (items d); [congruence | reflexivity].
  - intros [-> | [d [-> E]]]; unfold __init__; [reflexivity | now rewrite E].
Qed.

(** ** More on the parameter filter *)

(** X4.  [_filter_params] is idempotent: filtering the parameters it
    returned gives them back unchanged. *)
Theorem filter_params_idempotent (ns : Dict) :
  PyDict.wf ns -> _filter_params (_filter_params ns) = _filter_params ns.
Proof.
  intros H. rewrite (filter_params_filter ns H).
  rewrite filter_params_filter by now apply filter_wf.
  rewrite filter_filter. apply filter_ext. intros [k v]. simpl.
  now destruct (public_field k).
Qed.

Lemma filter_params_idempotent_witness :
  PyDict.wf vm_namespace
  /\ _filter_params (_filter_params vm_namespace) = _filter_params vm_namespace.
Proof.
  split; [exact vm_namespace_wf|].
  exact (filter_params_idempotent vm_namespace vm_namespace_wf).
Defined.

Lemma filter_public_set k v ns :
  public_field k = false ->
  filter (fun kv => public_field (fst kv)) (PyDict.set k v ns)
  = filter (fun kv => public_field (fst kv)) ns.
Proof.
  intros Hk. induction ns as [|[k' v'] ns IH]; simpl.
  - now rewrite Hk.
  - destruct (String.eqb_spec k k') as [->|Hne]; simpl.
    + now rewrite Hk.
    + now rewrite IH.
Qed.

(** X5.  The parameters do not depend on the private attributes of the
    namespace: deleting an attribute whose name starts with an underscore
    (as the validation chain does) or assigning one leaves
    [_filter_params] with the same result. *)
Theorem filter_params_ignores_private (ns : Dict) (k : string) (v : Value) :
  PyDict.wf ns ->
  Str.startswith "_" k = true ->
  _filter_params (PyDict.remove k ns) = _filter_params ns
  /\ _filter_params (PyDict.set k v ns) = _filter_params ns.
Proof.
  intros Hwf Hk.
  assert (Hpub : public_field k = false) by (unfold public_field; now rewrite Hk).
  split.
  - rewrite filter_params_filter by now apply remove_wf.
    rewrite (filter_params_filter ns Hwf), (remove_filter k ns Hwf), filter_filter.
    apply filter_ext. intros [k' v']. simpl.
    destruct (String.eqb_spec k' k) as [->|]; simpl; [now rewrite Hpub | reflexivity].
  - rewrite filter_params_filter by now apply set_wf.
    rewrite (filter_params_filter ns Hwf). now apply filter_public_set.
Qed.

Lemma filter_params_ignores_private_witness :
  PyDict.wf vm_namespace
  /\ Str.startswith "_" "_command_validator" = true
  /\ _filter_params (PyDict.remove "_command_validator" vm_namespace)
     = _filter_params vm_namespace.
Proof.
  split; [exact vm_namespace_wf|]. split; [reflexivity|].
  exact (proj1 (filter_params_ignores_private vm_namespace "_command_validator" VNone
                  vm_namespace_wf eq_refl)).
Defined.

(** ** More on the implicit deprecation *)

(** X6.  A found descriptor that lacks one of the accessor fields makes the
    resolver fail: deleting [_get_tag] from the copied fields raises a
    [KeyError] for that key when the field is missing, and deleting
    [_get_message] raises one for that key when only that field is. *)
Theorem implicit_deprecation_missing_accessor
    (World : Type) (resolve : World -> string -> option Dict) (w : World)
    (name : string) (found : Dict) :
  search_implicit_deprecation resolve w name = Some found ->
  (PyDict.mem "_get_tag" found = false ->
     implicit_deprecation resolve w name = Raise (KeyError "_get_tag"))
  /\ (PyDict.mem "_get_tag" found = true ->
      PyDict.mem "_get_message" found = false ->
        implicit_deprecation resolve w name = Raise (KeyError "_get_message")).
Proof.
  intros Hs. unfold implicit_deprecation, implicit_kwargs, delitem. rewrite Hs.
  assert (Htag : PyDict.mem "_get_tag" (PyDict.set "object_type" (VStr "command") found)
                 = PyDict.mem "_get_tag" found).
  { unfold PyDict.mem. now rewrite get_set. }
  assert (Hmsg : PyDict.mem "_get_message"
                   (PyDict.remove "_get_tag"
                      (PyDict.set "object_type" (VStr "command") found))
                 = PyDict.mem "_get_message" found).
  { unfold PyDict.mem. rewrite get_remove_other by discriminate. now rewrite get_set. }
  rewrite Htag. split.
  - now intros ->.
  - intros -> Hm. rewrite Hmsg, Hm. reflexivity.
Qed.

Lemma implicit_deprecation_missing_accessor_witness :
  search_implicit_deprecation bare_registry tt "vm create" = Some [("target", VStr "vm")]
  /\ implicit_deprecation bare_registry tt "vm create" = Raise (KeyError "_get_tag").
Proof.
  split; [reflexivity|].
  exact (proj1 (implicit_deprecation_missing_accessor unit bare_registry tt "vm create"
                  [("target", VStr "vm")] eq_refl) eq_refl).
Defined.

Lemma first_match_ext lookup1 lookup2 paths :
  (forall p, In p paths -> lookup1 p = lookup2 p) ->
  first_match lookup1 paths = first_match lookup2 paths.
Proof.
  induction paths as [|p paths IH]; simpl; intros H; [reflexivity|].
  rewrite <- (H p) by now left.
  destruct (lookup1 p); [reflexivity|]. apply IH. intros q Hq. apply H. now right.
Qed.

(** X7.  The implicit deprecation of a command depends on the registry at
    the paths of its proper ancestors only: two registries that agree there
    give the same result, whatever they hold for the command itself, for
    its siblings or for other groups.  In particular a command whose name
    is a single token has no implicit deprecation. *)
Theorem implicit_deprecation_ancestors_only
    (World : Type) (resolve1 resolve2 : World -> string -> option Dict) (w : World)
    (name : string) :
  (forall p, In p (ancestor_paths (removelast (Str.split name))) ->
             resolve1 w p = resolve2 w p) ->
  implicit_deprecation resolve1 w name = implicit_deprecation resolve2 w name
  /\ ((length (Str.split name) <= 1)%nat -> implicit_deprecation resolve1 w name = Ok None).
Proof.
  intros H. unfold implicit_deprecation, search_implicit_deprecation.
  rewrite !while_first_match by lia.
  split.
  - now rewrite (first_match_ext _ _ _ H).
  - intros Hlen.
    assert (Hr : removelast (Str.split name) = []).
    { destruct (Str.split name) as [|a [|b l]]; simpl in *; [reflexivity | reflexivity | lia]. }
    now rewrite Hr.
Qed.

Lemma implicit_deprecation_ancestors_only_witness :
  (forall p, In p (ancestor_paths (removelast (Str.split "vm create"))) ->
             vm_registry tt p = vm_registry_more tt p)
  /\ implicit_deprecation vm_registry tt "vm create"
     = implicit_deprecation vm_registry_more tt "vm create".
Proof.
  assert (H : forall p, In p (ancestor_paths (removelast (Str.split "vm create"))) ->
                        vm_registry tt p = vm_registry_more tt p).
  { intros p [<-|[]]. reflexivity. }
  split; [exact H|].
  exact (proj1 (implicit_deprecation_ancestors_only unit vm_registry vm_registry_more tt
                  "vm create" H)).
Defined.

(** ** More on the validation chain *)

Section ValidationEdges.

Variable World : Type.
Variable ext : Action -> Heap World -> Result Value * Heap World.
Variable self_parser : Value.
Variable fuel : nat.

Lemma validation_try_no_list (h : Heap World) log :
  truthy (h_lists h)
    (match PyDict.get "_command_validator" (h_ns h) with Some v => v | None => VNone end)
  = false ->
  PyDict.get "_argument_validators" (h_ns h) = None ->
  validation_try ext fuel (h, log) = (Ok tt, (h, log)).
Proof.
  intros Ht Hl. unfold validation_try.
  unfold bind at 1. unfold get_ns at 1. unfold bind at 1, get_heap at 1, ret at 1. simpl.
  unfold bind at 1. unfold is_true at 1, bind at 1, get_heap at 1, ret at 1.
  simpl. rewrite Ht.
  unfold _validate_arg_level, bind at 1. unfold get_ns at 1, bind at 1, get_heap at 1, ret at 1.
  simpl. rewrite Hl. unfold bind at 1, ret at 1.
  rewrite delattr_if_present_run.
  rewrite remove_absent by (unfold PyDict.mem; now rewrite Hl).
  now rewrite set_ns_same.
Qed.

(** X8.  With no validator attached (no [_command_validator], or one that
    is [None] or otherwise false, and an [_argument_validators] list that
    is missing or empty) the validation calls nothing and cannot fail: it
    returns with the log as it was and the heap changed only by the removal
    of [_argument_validators].  A false [_command_validator] attribute stays
    in the namespace. *)
Theorem validation_without_validators (h : Heap World) (log : list Action) :
  truthy (h_lists h)
    (match PyDict.get "_command_validator" (h_ns h) with Some v => v | None => VNone end)
  = false ->
  (PyDict.get "_argument_validators" (h_ns h) = None
   \/ exists loc, PyDict.get "_argument_validators" (h_ns h) = Some (VList loc)
                  /\ Lists.read loc (h_lists h) = []) ->
  _validation ext self_parser fuel (h, log)
  = (Ok tt, (set_ns (PyDict.remove "_argument_validators" (h_ns h)) h, log))
  /\ PyDict.get "_command_validator" (PyDict.remove "_argument_validators" (h_ns h))
     = PyDict.get "_command_validator" (h_ns h).
Proof.
  intros Ht Hl. split.
  - apply validation_returns. destruct Hl as [Hnone | [loc [Hloc Hempty]]].
    + rewrite (validation_try_no_list h log Ht Hnone).
      rewrite remove_absent by (unfold PyDict.mem; now rewrite Hnone).
      now rewrite set_ns_same.
    + rewrite (validation_body_arg World ext fuel loc h log Ht Hloc).
      unfold bind at 1. rewrite for_list_unfold.
      unfold bind at 1, get_heap at 1. cbn [fst snd]. rewrite Hempty.
      unfold ret. simpl. apply delattr_if_present_run.
  - now rewrite get_remove_other by discriminate.
Qed.

(** X9.  Argument-level validation is one-shot.  After a pass in which
    every validator of the attached list returned and none of them changed
    the list (the loop having a round for each), leaving a namespace with
    distinct attribute names and no command-level validator attached, a
    second pass over the same namespace calls no validator and changes
    nothing. *)
Theorem argument_validation_one_shot
    (h h' : Heap World) (log : list Action) (loc : nat) :
  truthy (h_lists h)
    (match PyDict.get "_command_validator" (h_ns h) with Some v => v | None => VNone end)
  = false ->
  PyDict.get "_argument_validators" (h_ns h) = Some (VList loc) ->
  list_kept ext loc (Lists.read loc (h_lists h)) h ->
  after_validators ext (Lists.read loc (h_lists h)) h = Some h' ->
  length (Lists.read loc (h_lists h)) <= fuel ->
  PyDict.wf (h_ns h') ->
  truthy (h_lists h')
    (match PyDict.get "_command_validator" (h_ns h') with Some v => v | None => VNone end)
  = false ->
  exists s1,
    _validation ext self_parser fuel (h, log) = (Ok tt, s1)
    /\ snd s1 = log ++ map call_validator (Lists.read loc (h_lists h))
    /\ _validation ext self_parser fuel s1 = (Ok tt, s1).
Proof.
  intros Ht Hl Hkept Hall Hfuel Hwf Ht'.
  eexists. split; [|split].
  - exact (validation_arg_returns World ext self_parser fuel loc h h' log
             Ht Hl Hkept Hall Hfuel).
  - reflexivity.
  - apply validation_returns.
    assert (Hgone : PyDict.get "_argument_validators"
                      (PyDict.remove "_argument_validators" (h_ns h')) = None)
      by now apply get_remove_same.
    apply validation_try_no_list; simpl.
    + now rewrite get_remove_other by discriminate.
    + exact Hgone.
Qed.

End ValidationEdges.

Lemma validation_without_validators_witness :
  truthy (h_lists (set_ns [("_command_validator", VNone)] vm_parsed))
    (match PyDict.get "_command_validator" (h_ns (set_ns [("_command_validator", VNone)] vm_parsed))
     with Some v => v | None => VNone end) = false
  /\ _validation passive (VObj 0) 8 (set_ns [("_command_validator", VNone)] vm_parsed, [])
     = (Ok tt, (set_ns [("_command_validator", VNone)] vm_parsed, [])).
Proof.
  split; [reflexivity|].
  exact (proj1 (validation_without_validators unit passive (VObj 0) 8
                  (set_ns [("_command_validator", VNone)] vm_parsed) []
                  eq_refl (or_introl eq_refl))).
Defined.

Lemma argument_validation_one_shot_witness :
  after_validators passive (Lists.read 0 (h_lists vm_parsed)) vm_parsed = Some vm_parsed
  /\ list_kept passive 0 (Lists.read 0 (h_lists vm_parsed)) vm_parsed
  /\ length (Lists.read 0 (h_lists vm_parsed)) <= 8
  /\ exists s1,
       _validation passive (VObj 0) 8 (vm_parsed, []) = (Ok tt, s1)
       /\ snd s1 = [] ++ map call_validator (Lists.read 0 (h_lists vm_parsed))
       /\ _validation passive (VObj 0) 8 s1 = (Ok tt, s1).
Proof.
  split; [reflexivity|]. split; [apply passive_list_kept|]. split; [simpl; lia|].
  exact (argument_validation_one_shot unit passive (VObj 0) 8 vm_parsed vm_parsed [] 0
           eq_refl eq_refl (passive_list_kept 0 _ vm_parsed) eq_refl
           ltac:(simpl; lia) vm_namespace_wf eq_refl).
Defined.

(** ** The order of the calls *)

Lemma in_order_weaken n n' log : n' <= n -> in_order n log -> in_order n' log.
Proof. destruct log as [|a log]; simpl; [tauto|]. intros H [H1 H2]. split; [lia | exact H2]. Qed.

Lemma next_step_bounds a : step a <= next_step a <= S (step a).
Proof. unfold next_step. destruct (repeatable a); lia. Qed.

Lemma in_order_app : forall l1 lo mid l2,
  lo <= mid -> in_order lo l1 -> Forall (fun a => step a < mid) l1 ->
  in_order mid l2 -> in_order lo (l1 ++ l2).
Proof.
  induction l1 as [|a l1 IH]; simpl; intros lo mid l2 Hle H1 Hall H2.
  - now apply in_order_weaken with (n := mid).
  - destruct H1 as [Ha H1]. inversion Hall as [|? ? Hlt Hall']; subst.
    split; [exact Ha|]. apply IH with (mid := mid); auto.
    pose proof (next_step_bounds a). lia.
Qed.

Lemma in_order_repeats p : forall l lo,
  lo <= p -> Forall (fun a => step a = p /\ repeatable a = true) l -> in_order lo l.
Proof.
  induction l as [|a l IH]; simpl; intros lo Hle Hall; [exact I|].
  inversion Hall as [|? ? [Hs Hr] Hall']; subst. split; [lia|].
  apply IH; [|exact Hall']. unfold next_step. rewrite Hr. lia.
Qed.

Lemma in_order_lower_bound : forall log n,
  in_order n log -> Forall (fun a => n <= step a) log.
Proof.
  induction log as [|a log IH]; simpl; intros n H; constructor.
  - tauto.
  - destruct H as [Ha H]. apply IH in H.
    eapply Forall_impl; [|exact H]. simpl. intros x Hx.
    pose proof (next_step_bounds a). lia.
Qed.

Lemma in_order_split : forall pre n a post,
  in_order n (pre ++ a :: post) ->
  Forall (fun x => next_step x <= step a) pre
  /\ Forall (fun x => next_step a <= step x) post.
Proof.
  induction pre as [|x pre IH]; simpl; intros n a post H.
  - destruct H as [_ H]. split; [constructor | now apply in_order_lower_bound].
  - destruct H as [_ H]. destruct (IH _ _ _ H) as [Hpre Hpost].
    split; [|exact Hpost]. constructor; [|exact Hpre].
    apply in_order_lower_bound in H.
    apply Forall_app in H. destruct H as [_ H]. now inversion H.
Qed.

Section CallOrder.

Variable World : Type.
Variable ext : Action -> Heap World -> Result Value * Heap World.
Variable resolve : World -> string -> option Dict.
Variable self_parser : Value.
Variable fuel : nat.

Lemma quiet_ret {A} (a : A) : quiet (ret (World:=World) a).
Proof. now intros s. Qed.

Lemma quiet_raise {A} e : quiet (raise (World:=World) (A:=A) e).
Proof. now intros s. Qed.

Lemma quiet_lift {A} (r : Result A) : quiet (lift (World:=World) r).
Proof. now intros s. Qed.

Lemma quiet_modify f : quiet (modify (World:=World) f).
Proof. now intros s. Qed.

Lemma quiet_get_heap : quiet (get_heap (World:=World)).
Proof. now intros s. Qed.

Lemma quiet_bind {A B} (m : M World A) (k : A -> M World B) :
  quiet m -> (forall a, quiet (k a)) -> quiet (bind m k).
Proof.
  intros Hm Hk s. unfold bind. specialize (Hm s).
  destruct (m s) as [[a|e] s1]; simpl in *; [now rewrite Hk | exact Hm].
Qed.

Lemma quiet_try_except {A} (body : M World A) handler :
  quiet body -> (forall e, quiet (handler e)) -> quiet (try_except body handler).
Proof.
  intros Hb Hh s. unfold try_except. specialize (Hb s).
  destruct (body s) as [[a|e] s1]; simpl in *; [exact Hb | now rewrite Hh].
Qed.

Lemma within_quiet {A} lo hi (m : M World A) : quiet m -> within lo hi m.
Proof.
  intros H s. exists []. rewrite H, app_nil_r. repeat split. constructor.
Qed.

Lemma within_weaken {A} lo hi lo' hi' (m : M World A) :
  lo' <= lo -> hi <= hi' -> within lo hi m -> within lo' hi' m.
Proof.
  intros Hlo Hhi H s. destruct (H s) as [added [E [Ho Hb]]].
  exists added. repeat split; [exact E | now apply in_order_weaken with (n := lo) |].
  eapply Forall_impl; [|exact Hb]. simpl. intros. lia.
Qed.

Lemma within_bind {A B} lo mid hi (m : M World A) (k : A -> M World B) :
  lo <= mid -> mid <= hi ->
  within lo mid m -> (forall a, within mid hi (k a)) -> within lo hi (bind m k).
Proof.
  intros Hlo Hhi Hm Hk s. destruct (Hm s) as [l1 [E1 [O1 B1]]].
  unfold bind. destruct (m s) as [[a|e] s1]; simpl in E1.
  - destruct (Hk a s1) as [l2 [E2 [O2 B2]]].
    exists (l1 ++ l2). repeat split.
    + now rewrite E2, E1, app_assoc.
    + now apply in_order_app with (mid := mid).
    + apply Forall_app. split; [|exact B2].
      eapply Forall_impl; [|exact B1]. simpl. intros. lia.
  - exists l1. repeat split; [exact E1 | exact O1 |].
    eapply Forall_impl; [|exact B1]. simpl. intros. lia.
Qed.

Lemma within_bind_quiet {A B} lo hi (m : M World A) (k : A -> M World B) :
  quiet m -> (forall a, within lo hi (k a)) -> within lo hi (bind m k).
Proof.
  intros Hm Hk s. unfold bind. specialize (Hm s).
  destruct (m s) as [[a|e] s1]; simpl in Hm.
  - destruct (Hk a s1) as [l [E [Ho Hb]]]. exists l. now rewrite E, Hm.
  - exists []. simpl. rewrite Hm, app_nil_r. repeat split. constructor.
Qed.

Lemma within_perform lo hi a :
  lo <= step a -> step a < hi -> within lo hi (perform ext a).
Proof.
  intros Hlo Hhi [h log]. exists [a]. unfold perform. simpl.
  destruct (ext a h) as [r h']. simpl. repeat split; auto.
Qed.

Lemma within_try_except {A} lo mid hi (body : M World A) handler :
  lo <= mid -> mid <= hi ->
  within lo mid body -> (forall e, within mid hi (handler e)) ->
  within lo hi (try_except body handler).
Proof.
  intros Hlo Hhi Hb Hh s. destruct (Hb s) as [l1 [E1 [O1 B1]]].
  unfold try_except. destruct (body s) as [[a|e] s1]; simpl in E1.
  - exists l1. repeat split; [exact E1 | exact O1 |].
    eapply Forall_impl; [|exact B1]. simpl. intros. lia.
  - destruct (Hh e s1) as [l2 [E2 [O2 B2]]].
    exists (l1 ++ l2). repeat split.
    + now rewrite E2, E1, app_assoc.
    + now apply in_order_app with (mid := mid).
    + apply Forall_app. split; [|exact B2].
      eapply Forall_impl; [|exact B1]. simpl. intros. lia.
Qed.

Lemma repeats_quiet {A} p (m : M World A) : quiet m -> repeats_at p m.
Proof. intros H s. exists []. rewrite H, app_nil_r. split; [reflexivity | constructor]. Qed.

Lemma repeats_bind {A B} p (m : M World A) (k : A -> M World B) :
  repeats_at p m -> (forall a, repeats_at p (k a)) -> repeats_at p (bind m k).
Proof.
  intros Hm Hk s. destruct (Hm s) as [l1 [E1 F1]].
  unfold bind. destruct (m s) as [[a|e] s1]; simpl in E1.
  - destruct (Hk a s1) as [l2 [E2 F2]]. exists (l1 ++ l2). split.
    + now rewrite E2, E1, app_assoc.
    + apply Forall_app. now split.
  - exists l1. now split.
Qed.

Lemma repeats_perform a : repeatable a = true -> repeats_at (step a) (perform ext a).
Proof.
  intros Hr [h log]. exists [a]. unfold perform. simpl.
  destruct (ext a h) as [r h']. simpl. split; [reflexivity | repeat constructor; exact Hr].
Qed.

Lemma repeats_for_each {A} p (l : list A) (body : A -> M World unit) :
  (forall x, repeats_at p (body x)) -> repeats_at p (for_each l body).
Proof.
  intros Hb. induction l as [|x l IH]; simpl.
  - apply repeats_quiet, quiet_ret.
  - apply repeats_bind; [apply Hb | intros _; exact IH].
Qed.

Lemma repeats_for_list p n loc (body : Value -> M World unit) :
  (forall x, repeats_at p (body x)) -> forall i, repeats_at p (for_list n loc i body).
Proof.
  intros Hb. induction n as [|n IH]; intros i; simpl;
    (apply repeats_bind; [apply repeats_quiet, quiet_get_heap | intros h]);
    destruct (nth_error _ i); try (apply repeats_quiet, quiet_ret);
    [apply repeats_quiet, quiet_raise|].
  apply repeats_bind; [apply Hb | intros _; apply IH].
Qed.

Lemma repeats_for_in p n v (body : Value -> M World unit) :
  (forall x, repeats_at p (body x)) -> repeats_at p (for_in n v body).
Proof.
  intros Hb.
  destruct v; simpl; try (apply repeats_quiet, quiet_raise);
    try (apply repeats_for_each; exact Hb).
  apply repeats_for_list; exact Hb.
Qed.

Lemma within_repeats {A} p lo hi (m : M World A) :
  lo <= p -> p < hi -> repeats_at p m -> within lo hi m.
Proof.
  intros Hlo Hhi H s. destruct (H s) as [l [E F]]. exists l. repeat split.
  - exact E.
  - now apply in_order_repeats with (p := p).
  - eapply Forall_impl; [|exact F]. simpl. intros a [-> _]. exact Hhi.
Qed.

Lemma within_bind_perform {B} lo hi a (k : Value -> M World B) :
  lo <= step a -> step a < hi ->
  (forall v, within (S (step a)) hi (k v)) ->
  within lo hi (bind (perform ext a) k).
Proof.
  intros Hlo Hhi Hk. apply within_bind with (mid := S (step a)); [lia | lia | | exact Hk].
  apply within_perform; lia.
Qed.

Ltac quiets :=
  repeat first
    [ apply quiet_ret | apply quiet_raise | apply quiet_lift
    | apply quiet_modify | apply quiet_get_heap
    | apply quiet_bind; [ | intros ? ]
    | apply quiet_try_except; [ | intros ? ]
    | match goal with
      | |- quiet (match ?x with _ => _ end) => destruct x
      end ].

Ltac forward :=
  first
    [ apply within_bind_quiet; [ solve [quiets] | intros ? ]
    | apply within_bind_perform; [ simpl; lia | simpl; lia | intros ?; cbn [step] ]
    | apply within_quiet; solve [quiets]
    | apply within_perform; simpl; lia ].

Lemma quiet_getattr attr : quiet (getattr (World:=World) attr).
Proof. unfold getattr, get_ns. quiets. Qed.

Lemma quiet_delattr_if_present attr : quiet (delattr_if_present (World:=World) attr).
Proof. unfold delattr_if_present, delattr, get_ns. quiets. Qed.

Lemma quiet_collect_deprecations : quiet (collect_deprecations (World:=World) resolve).
Proof. unfold collect_deprecations, getattr, get_ns, new_list, is_true, append. quiets. Qed.

Lemma quiet_data_getitem key : quiet (data_getitem (World:=World) key).
Proof. unfold data_getitem. quiets. Qed.

Lemma repeats_call_with_ns v : repeats_at 13 (call_with_ns ext v).
Proof.
  unfold call_with_ns. destruct (callable v).
  - apply repeats_bind; [exact (repeats_perform (call_validator v) eq_refl)|].
    intros _. apply repeats_quiet, quiet_ret.
  - apply repeats_quiet, quiet_raise.
Qed.

Lemma repeats_validation_try : repeats_at 13 (validation_try ext fuel).
Proof.
  unfold validation_try, _validate_cmd_level, _validate_arg_level, is_true, get_ns.
  apply repeats_bind; [apply repeats_quiet; quiets | intros ns].
  apply repeats_bind; [apply repeats_quiet; quiets | intros b].
  destruct b.
  - apply repeats_bind; [apply repeats_quiet; quiets | intros b].
    apply repeats_bind.
    + destruct b; [apply repeats_call_with_ns | apply repeats_quiet, quiet_ret].
    + intros _. apply repeats_quiet, quiet_delattr_if_present.
  - apply repeats_bind; [apply repeats_quiet; quiets | intros ns'].
    apply repeats_bind.
    + destruct (PyDict.get "_argument_validators" ns') as [validators|].
      * apply repeats_for_in. intros v. apply repeats_call_with_ns.
      * apply repeats_quiet, quiet_ret.
    + intros _. apply repeats_quiet, quiet_delattr_if_present.
Qed.

Lemma within_validation : within 13 15 (_validation ext self_parser fuel).
Proof.
  unfold _validation. apply within_try_except with (mid := 14); [lia | lia | |].
  - apply within_repeats with (p := 13); [lia | lia | apply repeats_validation_try].
  - intros e. unfold validation_except, get_ns. destruct e; repeat forward.
Qed.

Lemma within_print_deprecations d : within 15 18 (print_deprecations ext fuel d).
Proof.
  unfold print_deprecations. forward.
  apply within_bind with (mid := 17); [lia | lia | |].
  - apply within_repeats with (p := 16); [lia | lia |].
    apply repeats_for_in. intros x.
    apply repeats_bind; [exact (repeats_perform (print_message x) eq_refl)|].
    intros _. apply repeats_quiet, quiet_ret.
  - intros _. repeat forward.
Qed.

Lemma within_result_stage cmd_tbl params : within 18 22 (result_stage ext cmd_tbl params).
Proof.
  unfold result_stage.
  apply within_bind_quiet; [apply quiet_getattr | intros func].
  apply within_bind with (mid := 19); [lia | lia | |].
  - destruct (callable func); forward.
  - intros cmd_result. do 7 forward.
    apply within_quiet.
    apply quiet_bind; [quiets | intros result].
    apply quiet_bind; [apply quiet_getattr | intros command].
    apply quiet_bind; [quiets | intros hG].
    apply quiet_bind; [quiets | intros cmd].
    apply quiet_bind; [quiets | intros tt'].
    apply quiet_bind; [apply quiet_data_getitem | intros qa]. quiets.
Qed.

Lemma within_run_stage cmd_tbl : within 13 22 (run_stage ext resolve self_parser fuel cmd_tbl).
Proof.
  unfold run_stage.
  apply within_bind with (mid := 15); [lia | lia | apply within_validation | intros _].
  apply within_bind_quiet; [apply quiet_getattr | intros command].
  apply within_bind_quiet; [unfold data_setitem; quiets | intros _].
  apply within_bind_quiet; [unfold get_ns; quiets | intros parsed_args].
  apply within_bind_quiet; [apply quiet_collect_deprecations | intros deprecations].
  apply within_bind with (mid := 18); [lia | lia | apply within_print_deprecations | intros _].
  apply within_result_stage.
Qed.

Lemma within_load_stage : within 1 7 (load_stage ext self_parser).
Proof.
  unfold load_stage, _rudimentary_get_command, get_args. repeat forward.
Qed.

Lemma within_parse_stage : within 7 13 (parse_stage ext).
Proof.
  unfold parse_stage, get_args, getattr, get_ns. repeat forward.
Qed.

Lemma within_welcome_stage : within 7 10 (welcome_stage ext).
Proof. unfold welcome_stage. repeat forward. Qed.

Lemma within_execute args : within 1 22 (execute ext resolve self_parser fuel args).
Proof.
  unfold execute. forward.
  apply within_bind with (mid := 7); [lia | lia | apply within_load_stage | intros cmd_tbl].
  apply within_bind_quiet; [unfold get_args; quiets | intros args'].
  destruct args' as [|first rest].
  - apply within_weaken with (lo := 7) (hi := 10); [lia | lia | apply within_welcome_stage].
  - apply within_bind with (mid := 13); [lia | lia | apply within_parse_stage | intros _].
    apply within_run_stage.
Qed.

Lemma before_handler x : next_step x <= 18 -> step x < 18.
Proof.
  unfold next_step. destruct x as [[]| | | | | | | | | | | | | |]; simpl; lia.
Qed.

(** X10.  The calls that [execute] makes to its collaborators follow the
    text of the function in every run, whatever the collaborators do and
    however the run ends: each call comes at a later place than the one
    before it, the calls to validators and the prints of warnings being the
    only ones that repeat.  So no event is raised twice, arguments are
    parsed at most once, validators run only between parsing and the first
    print, and the handler is called at most once: what comes before its
    call is at an earlier place (loading, parsing, validation, warnings) and
    what comes after it is [todict] and the two result events. *)
Theorem execute_call_order (args : list string) (s0 : State World) :
  exists added,
    snd (snd (execute ext resolve self_parser fuel args s0)) = snd s0 ++ added
    /\ in_order 1 added
    /\ (forall pre func params post,
          added = pre ++ call_handler func params :: post ->
          Forall (fun a => step a < 18) pre /\ Forall (fun a => 18 < step a) post).
Proof.
  destruct (within_execute args s0) as [added [E [Ho _]]].
  exists added. split; [exact E|]. split; [exact Ho|].
  intros pre func params post ->.
  destruct (in_order_split _ _ _ _ Ho) as [Hpre Hpost]. split.
  - eapply Forall_impl; [|exact Hpre]. intros x Hx. now apply before_handler.
  - eapply Forall_impl; [|exact Hpost]. simpl. intros x Hx.
    unfold next_step in Hx. simpl in Hx. lia.
Qed.

End CallOrder.

(** ** What a finished run returns *)

Lemma filter_params_remove_private ns k :
  PyDict.wf ns -> Str.startswith "_" k = true ->
  _filter_params (PyDict.remove k ns) = _filter_params ns.
Proof.
  intros Hwf Hk.
  assert (Hpub : public_field k = false) by (unfold public_field; now rewrite Hk).
  rewrite filter_params_filter by now apply remove_wf.
  rewrite (filter_params_filter ns Hwf), (remove_filter k ns Hwf), filter_filter.
  apply filter_ext. intros [k' v']. simpl.
  destruct (String.eqb_spec k' k) as [->|]; simpl; [now rewrite Hpub | reflexivity].
Qed.

Section RunResult.

Variable World : Type.
Variable ext : Action -> Heap World -> Result Value * Heap World.
Variable resolve : World -> string -> option Dict.
Variable self_parser : Value.
Variable fuel : nat.

Hypothesis frame_ns : forall a h, h_ns (snd (ext a h)) = h_ns h.

Lemma view_perform ns0 a : preserves (namespace_view ns0) (perform ext a).
Proof.
  intros [h log] Hv. unfold perform. simpl in *.
  pose proof (frame_ns a h) as Hns. destruct (ext a h) as [r h1]. simpl in *.
  unfold namespace_view in *. now rewrite Hns.
Qed.

Lemma view_delattr ns0 attr :
  attr = "_command_validator" \/ attr = "_argument_validators" ->
  preserves (namespace_view ns0) (delattr_if_present (World:=World) attr).
Proof.
  intros Hattr [h log] [Hwf [Hget Hpar]]. rewrite delattr_if_present_run.
  unfold namespace_view. simpl in *. repeat split.
  - now apply remove_wf.
  - intros k H1 H2. rewrite get_remove_other; [now apply Hget|].
    destruct Hattr; congruence.
  - rewrite filter_params_remove_private; [exact Hpar | exact Hwf |].
    destruct Hattr; subst; reflexivity.
Qed.

Ltac ns_kept :=
  let h := fresh "h" in
  intros h [? [? ?]]; unfold namespace_view;
  cbn [h_ns set_data set_args set_event_data set_lists]; auto.

Ltac views :=
  repeat first
    [ apply preserves_ret | apply preserves_raise | apply preserves_lift
    | apply preserves_get_heap | apply view_perform
    | apply view_delattr; tauto
    | apply preserves_modify; ns_kept
    | apply preserves_bind; [ | intros ? ]
    | apply preserves_try_except; [ | intros ? ]
    | apply preserves_for_each; intros ?
    | apply preserves_for_in; intros ?
    | match goal with
      | |- preserves _ (match ?x with _ => _ end) => destruct x
      end ].

Lemma view_validation ns0 : preserves (namespace_view ns0) (_validation ext self_parser fuel).
Proof.
  unfold _validation, validation_try, validation_except, _validate_cmd_level,
    _validate_arg_level, is_true, get_ns.
  views; unfold call_with_ns; views.
Qed.

Lemma view_collect ns0 :
  preserves (namespace_view ns0) (collect_deprecations (World:=World) resolve).
Proof.
  unfold collect_deprecations, getattr, get_ns, new_list, is_true, append. views.
Qed.

Lemma view_print ns0 d : preserves (namespace_view ns0) (print_deprecations ext fuel d).
Proof. unfold print_deprecations. views. Qed.

Lemma view_result_stage ns0 cmd_tbl params :
  preserves (namespace_view ns0) (result_stage ext cmd_tbl params).
Proof. unfold result_stage, getattr, get_ns, data_getitem. views. Qed.

Lemma getattr_value attr (s s' : State World) v :
  getattr attr s = (Ok v, s') -> s' = s /\ PyDict.get attr (h_ns (fst s)) = Some v.
Proof.
  unfold getattr, get_ns, bind, get_heap, ret, raise. simpl.
  destruct (PyDict.get attr (h_ns (fst s))); [|discriminate].
  intros H. injection H as <- <-. auto.
Qed.

Lemma data_getitem_value key (s s' : State World) v :
  data_getitem key s = (Ok v, s') ->
  PyDict.get key (items (h_data (fst s'))) = Some v /\ snd s' = snd s
  /\ h_lists (fst s') = h_lists (fst s).
Proof.
  unfold data_getitem, bind, get_heap, ret, raise, modify. simpl.
  destruct (PyDict.get key (items (h_data (fst s)))) eqn:E.
  - intros H. injection H as <- <-. auto.
  - destruct (is_defaultdict (h_data (fst s))); [|discriminate].
    intros H. injection H as <- <-. simpl. rewrite get_set, String.eqb_refl. auto.
Qed.

(** The handler call and the table lookup of a result stage that returns. *)
Lemma result_stage_returns cmd_tbl params (s : State World) r h' log' :
  result_stage ext cmd_tbl params s = (Ok r, (h', log')) ->
  exists item func command cmd,
    r = Some item
    /\ PyDict.get "func" (h_ns (fst s)) = Some func
    /\ PyDict.get "command" (h_ns (fst s)) = Some command
    /\ In (call_handler func params) log'
    /\ getitem (h_lists h') cmd_tbl command = Ok cmd
    /\ cmd_table_transformer cmd = Ok (table_transformer item)
    /\ PyDict.get "query_active" (items (h_data h')) = Some (is_query_active item).
Proof.
  unfold result_stage. intros H.
  apply bind_ok in H. destruct H as [func [s1 [Hfunc H]]].
  apply getattr_value in Hfunc. destruct Hfunc as [-> Hfunc].
  apply bind_ok in H. destruct H as [cmd_result [s2 [Hcall H]]].
  destruct s as [h log]. simpl in Hfunc.
  destruct (callable func); [|discriminate].
  apply perform_ok in Hcall. destruct Hcall as [h2 [Ecall ->]].
  pose proof (frame_ns (call_handler func params) h) as N2. rewrite Ecall in N2. simpl in N2.
  apply bind_ok in H. destruct H as [cmd_result' [s3 [Htd H]]].
  apply perform_ok in Htd. destruct Htd as [h3 [Etd ->]].
  pose proof (frame_ns (todict cmd_result) h2) as N3. rewrite Etd in N3. simpl in N3.
  apply bind_ok in H. destruct H as [[] [s4 [Hmod H]]].
  unfold modify in Hmod. injection Hmod as <-. simpl in H.
  apply bind_ok in H. destruct H as [hT [s5 [HhT H]]].
  unfold get_heap in HhT. simpl in HhT. injection HhT as <- <-.
  apply bind_ok in H. destruct H as [r1 [s6 [Htr H]]].
  apply perform_ok in Htr. destruct Htr as [h4 [Etr ->]].
  match type of Etr with
  | ext ?a ?hh = _ => pose proof (frame_ns a hh) as N4
  end.
  rewrite Etr in N4. simpl in N4.
  apply bind_ok in H. destruct H as [h1' [s7 [Hh1 H]]].
  unfold get_heap in Hh1. simpl in Hh1. injection Hh1 as <- <-.
  apply bind_ok in H. destruct H as [r2 [s8 [Hfi H]]].
  apply perform_ok in Hfi. destruct Hfi as [h5 [Efi ->]].
  pose proof (frame_ns (raise_event (EVENT_INVOKER_FILTER_RESULT (h_event_data h4))) h4) as N5.
  rewrite Efi in N5. simpl in N5.
  apply bind_ok in H. destruct H as [h2' [s9 [Hh2 H]]].
  unfold get_heap in Hh2. simpl in Hh2. injection Hh2 as <- <-.
  apply bind_ok in H. destruct H as [res [s10 [Hres H]]].
  destruct (PyDict.get "result" (h_event_data h5)) as [v|]; [|discriminate].
  unfold ret in Hres. injection Hres as <- <-.
  apply bind_ok in H. destruct H as [command [s11 [Hcmd H]]].
  apply getattr_value in Hcmd. destruct Hcmd as [-> Hcmd]. simpl in Hcmd.
  apply bind_ok in H. destruct H as [hG [sG [HhG H]]].
  unfold get_heap in HhG. simpl in HhG. injection HhG as <- <-.
  apply bind_ok in H. destruct H as [cmd [s12 [Hget H]]].
  unfold lift in Hget. injection Hget as Hget <-.
  apply bind_ok in H. destruct H as [tt' [s13 [Htt H]]].
  unfold lift in Htt. injection Htt as Htt <-.
  apply bind_ok in H. destruct H as [qa [s14 [Hqa H]]].
  apply data_getitem_value in Hqa. destruct Hqa as [Hqa [Hlog Hlists]].
  unfold ret in H. injection H as Hr Hs. subst r s14. simpl in Hqa, Hlog, Hlists.
  eexists. exists func, command, cmd. split; [reflexivity|]. simpl.
  repeat split; try assumption.
  - rewrite <- Hcmd. now rewrite N5, N4, N3, N2.
  - rewrite Hlog. rewrite !in_app_iff. simpl. tauto.
  - now rewrite Hlists.
Qed.

(** X11.  What a finished run returns, for collaborators that leave the
    namespace as it is and a parsed namespace with distinct attribute names:
    a run stage that returns has called the handler [func] of the namespace
    with its filtered parameters (the attributes without a leading
    underscore, [func] and [command]), the command name of the namespace is
    a key of the command table, and the item returned carries the table
    transformer of that entry, the [result] left in [event_data] and, as
    query-active flag, the [query_active] entry of the invocation state.  So
    a command that is missing from the table makes the run fail, after its
    handler has run. *)
Theorem run_stage_returns
    (cmd_tbl : Value) (h h' : Heap World) (log log' : list Action)
    (r : option CommandResultItem) :
  PyDict.wf (h_ns h) ->
  run_stage ext resolve self_parser fuel cmd_tbl (h, log) = (Ok r, (h', log')) ->
  exists item func command cmd,
    r = Some item
    /\ PyDict.get "func" (h_ns h) = Some func
    /\ PyDict.get "command" (h_ns h) = Some command
    /\ In (call_handler func (_filter_params (h_ns h))) log'
    /\ getitem (h_lists h') cmd_tbl command = Ok cmd
    /\ cmd_table_transformer cmd = Ok (table_transformer item)
    /\ PyDict.get "query_active" (items (h_data h')) = Some (is_query_active item)
    /\ PyDict.get "result" (h_event_data h') = Some (result item).
Proof.
  intros Hwf Hrun. unfold run_stage in Hrun.
  assert (V0 : namespace_view (h_ns h) h) by (unfold namespace_view; auto).
  apply bind_ok in Hrun. destruct Hrun as [[] [s1 [Hval Hrun]]].
  pose proof (view_validation (h_ns h) (h, log) V0) as V1. rewrite Hval in V1. simpl in V1.
  apply bind_ok in Hrun. destruct Hrun as [command0 [s2 [Hcmd Hrun]]].
  apply getattr_value in Hcmd. destruct Hcmd as [-> _].
  apply bind_ok in Hrun. destruct Hrun as [[] [s3 [Hset Hrun]]].
  unfold data_setitem, modify in Hset. injection Hset as <-.
  apply bind_ok in Hrun. destruct Hrun as [parsed_args [s4 [Hns Hrun]]].
  unfold get_ns, bind, get_heap, ret in Hns. simpl in Hns. injection Hns as <- <-.
  apply bind_ok in Hrun. destruct Hrun as [deprecations [s5 [Hcol Hrun]]].
  apply bind_ok in Hrun. destruct Hrun as [[] [s6 [Hprint Hrun]]].
  destruct s1 as [h1 log1]. simpl in *.
  set (h2 := set_data _ h1) in *.
  assert (V2 : namespace_view (h_ns h) h2) by exact V1.
  pose proof (view_collect (h_ns h) (h2, log1) V2) as V3. rewrite Hcol in V3. simpl in V3.
  pose proof (view_print (h_ns h) deprecations s5 V3) as V4. rewrite Hprint in V4. simpl in V4.
  destruct V1 as [_ [_ Hpar]]. destruct V4 as [_ [Hget _]].
  destruct (result_stage_returns cmd_tbl _ s6 r h' log' Hrun)
    as [item [func [command [cmd [-> [Hf [Hc [Hin [Hgi [Htt Hqa]]]]]]]]]].
  exists item, func, command, cmd. split; [reflexivity|].
  rewrite Hget in Hf by discriminate. rewrite Hget in Hc by discriminate.
  unfold h2 in Hin. simpl in Hin. rewrite Hpar in Hin.
  repeat split; try assumption.
  destruct (result_stage_payload World ext cmd_tbl _ s6 item h' log' Hrun)
    as [v0 [hT [r1 [h3 [r2 [h4 [_ [_ [_ [Hres Hed]]]]]]]]]].
  now rewrite Hed.
Qed.

End RunResult.

Lemma run_stage_returns_witness :
  (forall a (h : Heap unit), h_ns (snd (passive a h)) = h_ns h)
  /\ PyDict.wf (h_ns vm_parsed)
  /\ exists item func command cmd,
       fst (run_stage passive vm_registry (VObj 0) 8 vm_cmd_tbl (vm_parsed, [])) = Ok (Some item)
       /\ PyDict.get "func" (h_ns vm_parsed) = Some func
       /\ PyDict.get "command" (h_ns vm_parsed) = Some command
       /\ getitem (h_lists vm_parsed) vm_cmd_tbl command = Ok cmd
       /\ cmd_table_transformer cmd = Ok (table_transformer item).
Proof.
  split; [reflexivity|]. split; [exact vm_namespace_wf|].
  assert (Hrun : run_stage passive vm_registry (VObj 0) 8 vm_cmd_tbl (vm_parsed, [])
                 = (Ok (Some (mkCommandResultItem VNone VNone VNone)),
                    (fst (snd (run_stage passive vm_registry (VObj 0) 8 vm_cmd_tbl (vm_parsed, []))),
                     snd (snd (run_stage passive vm_registry (VObj 0) 8 vm_cmd_tbl (vm_parsed, []))))))
    by (vm_compute; reflexivity).
  destruct (run_stage_returns unit passive vm_registry (VObj 0) 8 (fun a h => eq_refl)
              vm_cmd_tbl vm_parsed _ [] _ _ vm_namespace_wf Hrun)
    as [item [func [command [cmd [Hr [Hf [Hc [_ [Hg [Ht _]]]]]]]]]].
  exists item, func, command, cmd. rewrite Hrun. simpl. rewrite Hr.
  repeat split; [exact Hf | exact Hc | exact Hg | exact Ht].
Defined.

(** ** Command names written with single spaces *)

Lemma str_app_assoc (a b c : string) : ((a ++ b) ++ c)%string = (a ++ (b ++ c))%string.
Proof. induction a as [|x a IH]; simpl; [reflexivity | now rewrite IH]. Qed.

Lemma str_app_nil_r (a : string) : (a ++ "")%string = a.
Proof. induction a as [|x a IH]; simpl; [reflexivity | now rewrite IH]. Qed.

Lemma split_from_token : forall t cur s,
  no_space t = true ->
  Str.split_from cur (t ++ s) = Str.split_from (cur ++ t) s.
Proof.
  induction t as [|c t IH]; simpl; intros cur s H.
  - now rewrite str_app_nil_r.
  - apply andb_prop in H. destruct H as [Hc Ht].
    apply negb_true_iff in Hc. rewrite Hc.
    rewrite (IH _ _ Ht), str_app_assoc. reflexivity.
Qed.

Lemma emit_token cur t rest :
  plain_token t = true -> Str.emit (cur ++ t) rest = (cur ++ t)%string :: rest.
Proof.
  unfold plain_token. intros H. apply andb_prop in H. destruct H as [Hne _].
  destruct t as [|c t]; [discriminate|].
  destruct cur; reflexivity.
Qed.

Lemma split_from_space cur s :
  Str.split_from cur (String " " s) = Str.emit cur (Str.split_from "" s).
Proof. reflexivity. Qed.

Lemma split_from_join : forall tokens t cur,
  plain_token t = true ->
  Forall (fun x => plain_token x = true) tokens ->
  Str.split_from cur (Str.join " " (t :: tokens)) = (cur ++ t)%string :: tokens.
Proof.
  induction tokens as [|t2 tokens IH]; intros t cur Ht Hall.
  - unfold Str.join. simpl. rewrite <- (str_app_nil_r t) at 1.
    rewrite split_from_token by (unfold plain_token in Ht; apply andb_prop in Ht; tauto).
    simpl. now apply emit_token.
  - inversion Hall as [|? ? Ht2 Hall']; subst.
    unfold Str.join in *.
    change (String.concat " " (t :: t2 :: tokens))
      with (t ++ String " " (String.concat " " (t2 :: tokens)))%string.
    rewrite split_from_token by (unfold plain_token in Ht; apply andb_prop in Ht; tauto).
    rewrite split_from_space, (IH t2 ""%string Ht2 Hall').
    now apply emit_token.
Qed.

Lemma split_join tokens :
  Forall (fun x => plain_token x = true) tokens ->
  Str.split (Str.join " " tokens) = tokens.
Proof.
  intros H. destruct tokens as [|t tokens]; [reflexivity|].
  inversion H; subst. unfold Str.split. now rewrite split_from_join.
Qed.

(** X12.  For a command name written as tokens joined by single spaces (no
    token empty or with white space in it), splitting the name gives the
    tokens back, so the resolver looks up the name without its last token,
    then that path without its last token, and so on, and returns the first
    descriptor found. *)
Theorem search_canonical_name
    (World : Type) (resolve : World -> string -> option Dict) (w : World)
    (tokens : list string) :
  Forall (fun t => plain_token t = true) tokens ->
  Str.split (Str.join " " tokens) = tokens
  /\ search_implicit_deprecation resolve w (Str.join " " tokens)
     = first_match (resolve w) (ancestor_paths (removelast tokens)).
Proof.
  intros H. pose proof (split_join tokens H) as E. split; [exact E|].
  unfold search_implicit_deprecation. rewrite E.
  apply while_first_match. lia.
Qed.

Lemma search_canonical_name_witness :
  Forall (fun t => plain_token t = true) ["vm"; "disk"; "create"]
  /\ search_implicit_deprecation vm_registry tt "vm disk create" = Some vm_group.
Proof.
  assert (H : Forall (fun t => plain_token t = true) ["vm"; "disk"; "create"])
    by (repeat constructor).
  split; [exact H|].
  exact (eq_trans
           (proj2 (search_canonical_name unit vm_registry tt ["vm"; "disk"; "create"] H))
           eq_refl).
Defined.

(** ** What the collaborators are passed *)

Lemma passed_late args a : 13 <= step a -> passed args a.
Proof.
  destruct a as [[]| | | | | | | | | | | | | |]; simpl; intros H; try exact I; lia.
Qed.

Section Passed.

Variable World : Type.
Variable ext : Action -> Heap World -> Result Value * Heap World.
Variable resolve : World -> string -> option Dict.
Variable self_parser : Value.
Variable fuel : nat.

Hypothesis args_untouched : forall a h, h_args (snd (ext a h)) = h_args h.

Ltac call_ext :=
  match goal with
  | |- context [ext ?a ?hh] =>
      let E := fresh "E" in
      let Ha := fresh "Ha" in
      pose proof (args_untouched a hh) as Ha;
      destruct (ext a hh) as [[?v|?e] ?h'] eqn:E;
      cbn [fst snd h_args set_args] in Ha |- *
  end.

Ltac stop_here args :=
  eexists; split;
  [ rewrite <- ?app_assoc; cbn [app]; reflexivity
  | repeat constructor ].

(** X13.  What the first two stages of [execute] hand over, for
    collaborators that leave the argument list as it is, in every run on
    [args]: the first event and [load_command_table] get the list as it was
    passed; [load_arguments] gets the command name of the heuristic, the
    leading tokens before the first option in lower case; and the
    pre-parse-args event and [parse_args] get the list with those leading
    tokens in lower case, the options and what follows them untouched, and
    a first token [help] replaced by [--help]. *)
Theorem execute_passes (args : list string) (h0 : Heap World) (log0 : list Action) :
  exists added,
    snd (snd (execute ext resolve self_parser fuel args (h0, log0))) = log0 ++ added
    /\ Forall (passed args) added.
Proof.
  unfold execute, load_stage, _rudimentary_get_command, get_args.
  unfold bind at 1. unfold modify at 1. cbn [fst snd].
  unfold bind at 1. unfold bind at 1. unfold bind at 1, get_heap at 1, ret at 1.
  cbn [fst snd h_args set_args].
  unfold bind at 1. unfold perform at 1. cbn [fst snd].
  call_ext; [|stop_here args].
  unfold bind at 1. unfold bind at 1, get_heap at 1, ret at 1. cbn [fst snd]. rewrite Ha.
  unfold bind at 1. unfold perform at 1. cbn [fst snd].
  call_ext; [|stop_here args].
  unfold bind at 1. unfold bind at 1. unfold bind at 1, get_heap at 1, ret at 1.
  cbn [fst snd]. rewrite Ha0, Ha.
  destruct (scan_nouns args) as [nouns args'] eqn:Hscan.
  unfold bind at 1, modify at 1, ret at 1. cbn [fst snd].
  unfold bind at 1. unfold perform at 1. cbn [fst snd].
  call_ext; [|stop_here args; simpl; now rewrite Hscan].
  unfold bind at 1. unfold perform at 1. cbn [fst snd].
  call_ext; [|stop_here args; simpl; now rewrite Hscan].
  unfold bind at 1. unfold perform at 1. cbn [fst snd].
  call_ext; [|stop_here args; simpl; now rewrite Hscan].
  unfold bind at 1. unfold perform at 1. cbn [fst snd].
  call_ext; [|stop_here args; simpl; now rewrite Hscan].
  unfold ret at 1.
  unfold bind at 1. unfold bind at 1, get_heap at 1, ret at 1. cbn [fst snd].
  rewrite Ha4, Ha3, Ha2, Ha1.
  destruct args' as [|first rest].
  - match goal with
    | |- context [welcome_stage ext ?s] =>
        destruct (within_welcome_stage World ext s) as [added [E' [Ho Hb]]]
    end.
    rewrite E'. cbn [snd]. eexists. split.
    + rewrite <- !app_assoc. cbn [app]. reflexivity.
    + repeat (constructor; [simpl; rewrite ?Hscan; auto|]).
      apply in_order_lower_bound in Ho. rewrite Forall_forall in *.
      intros a Hin. specialize (Ho a Hin). specialize (Hb a Hin).
      destruct a as [[]| | | | | | | | | | | | | |]; simpl in *; try exact I; lia.
  - unfold parse_stage, get_args, getattr, get_ns.
    unfold bind at 1. unfold bind at 1, modify at 1. cbn [fst snd h_args set_args].
    rewrite Ha4, Ha3, Ha2, Ha1.
    unfold bind at 1. unfold perform at 1. cbn [fst snd].
    call_ext; [|stop_here args; simpl; now rewrite Hscan].
    unfold bind at 1. unfold bind at 1, get_heap at 1, ret at 1. cbn [fst snd].
    rewrite Ha5. cbn [h_args].
    unfold bind at 1. unfold perform at 1. cbn [fst snd].
    call_ext; [|stop_here args; simpl; now rewrite Hscan].
    unfold bind at 1. unfold bind at 1, get_heap at 1, ret at 1. cbn [fst snd].
    rewrite Ha6, Ha5. cbn [h_args].
    unfold bind at 1. unfold perform at 1. cbn [fst snd].
    call_ext; [|stop_here args; simpl; now rewrite Hscan].
    unfold bind at 1. unfold bind at 1. unfold bind at 1, get_heap at 1, ret at 1.
    cbn [fst snd].
    match goal with
    | |- context [PyDict.get "command" ?ns] =>
        destruct (PyDict.get "command" ns) as [command|]
    end;
      [|unfold raise; stop_here args; simpl; now rewrite Hscan].
    unfold ret at 1. unfold bind at 1. unfold bind at 1, get_heap at 1, ret at 1.
    cbn [fst snd].
    unfold bind at 1. unfold perform at 1. cbn [fst snd].
    call_ext; [|stop_here args; simpl; now rewrite Hscan].
    unfold ret at 1.
    match goal with
    | |- context [run_stage ext resolve self_parser fuel ?c ?s] =>
        destruct (within_run_stage World ext resolve self_parser fuel c s) as [added [E' [Ho _]]]
    end.
    rewrite E'. cbn [snd]. eexists. split.
    + rewrite <- !app_assoc. cbn [app]. reflexivity.
    + repeat (constructor; [simpl; rewrite ?Hscan; auto|]).
      apply in_order_lower_bound in Ho.
      eapply Forall_impl; [|exact Ho]. intros a Ha'. now apply passed_late.
Qed.

End Passed.

Lemma execute_passes_witness :
  (forall a (h : Heap unit), h_args (snd (passive a h)) = h_args h)
  /\ exists added,
       snd (snd (execute passive vm_registry (VObj 0) 8 ["VM"; "Create"; "--Name"; "Box"]
                   (vm_parsed, [])))
       = [] ++ added
       /\ Forall (passed ["VM"; "Create"; "--Name"; "Box"]) added.
Proof.
  split; [reflexivity|].
  exact (execute_passes unit passive vm_registry (VObj 0) 8 (fun a h => eq_refl)
           ["VM"; "Create"; "--Name"; "Box"] vm_parsed []).
Defined.

(** ** Warnings of a namespace without argument deprecations *)

Lemma lists_get_set l loc items ls :
  Lists.get l (Lists.set loc items ls)
  = if Nat.eqb l loc then Some items else Lists.get l ls.
Proof.
  induction ls as [|[l0 old] ls IH]; simpl.
  - reflexivity.
  - destruct (Nat.eqb_spec loc l0) as [->|Hne]; simpl.
    + now destruct (Nat.eqb l l0).
    + rewrite IH. destruct (Nat.eqb_spec l l0) as [->|]; [|reflexivity].
      destruct (Nat.eqb_spec l0 loc); [congruence | reflexivity].
Qed.

(** X14.  When the parsed namespace has no [_argument_deprecations]
    attribute, the warnings of the command go to a new list: collecting
    them leaves the namespace as it is, gives it no such attribute, changes
    no list object that existed, and returns a list that holds the
    command's own deprecation, if it has one, followed by the implicit one,
    if there is one. *)
Theorem collect_deprecations_new_list
    (World : Type) (resolve : World -> string -> option Dict)
    (h : Heap World) (log : list Action) (name : string) (info tt : Value)
    (implicit : option Value) :
  PyDict.get "func" (h_ns h) = Some (VCommand name info tt) ->
  PyDict.get "_argument_deprecations" (h_ns h) = None ->
  implicit_deprecation resolve (h_world h) name = Ok implicit ->
  exists loc ls',
    collect_deprecations resolve (h, log) = (Ok (VList loc), (set_lists ls' h, log))
    /\ Lists.get loc (h_lists h) = None
    /\ (forall l, l <> loc -> Lists.get l ls' = Lists.get l (h_lists h))
    /\ Lists.read loc ls' = command_warnings (h_lists h) info implicit.
Proof.
  intros Hfunc Hlist Himp.
  unfold collect_deprecations, getattr, get_ns, is_true, append, new_list, command_warnings,
    bind, get_heap, ret, lift, modify.
  cbn [fst snd]. rewrite Hfunc. cbn [fst snd cmd_deprecate_info cmd_name]. rewrite Hlist.
  cbn [fst snd h_world h_lists set_lists]. rewrite truthy_set_fresh.
  exists (Lists.fresh (h_lists h)).
  destruct (truthy (h_lists h) info); cbn [fst snd h_world h_lists set_lists];
    rewrite Himp; destruct implicit as [d|]; cbn [fst snd h_world h_lists set_lists];
    eexists; (split; [reflexivity|]); (split; [apply fresh_not_allocated|]);
    (split; [|now rewrite !read_set]);
    intros l Hl; rewrite !lists_get_set;
    destruct (Nat.eqb_spec l (Lists.fresh (h_lists h))); congruence.
Qed.

Lemma collect_deprecations_new_list_witness :
  PyDict.get "func" (h_ns (set_ns [("func", vm_create)] vm_parsed))
  = Some (VCommand "vm create" (VDeprecated vm_create_info) VNone)
  /\ PyDict.get "_argument_deprecations" (h_ns (set_ns [("func", vm_create)] vm_parsed)) = None
  /\ exists loc ls',
       collect_deprecations vm_registry (set_ns [("func", vm_create)] vm_parsed, [])
       = (Ok (VList loc), (set_lists ls' (set_ns [("func", vm_create)] vm_parsed), []))
       /\ Lists.read loc ls'
          = [VDeprecated vm_create_info; VImplicitDeprecated vm_implicit_kwargs].
Proof.
  do 2 (split; [reflexivity|]).
  destruct (collect_deprecations_new_list unit vm_registry
              (set_ns [("func", vm_create)] vm_parsed) [] "vm create"
              (VDeprecated vm_create_info) VNone
              (Some (VImplicitDeprecated vm_implicit_kwargs))
              eq_refl eq_refl eq_refl) as [loc [ls' [Hc [_ [_ Hr]]]]].
  exists loc, ls'. split; [exact Hc | exact Hr].
Defined.

(** ** The command recorded in the invocation state *)

Section RecordedCommand.

Variable World : Type.
Variable ext : Action -> Heap World -> Result Value * Heap World.
Variable resolve : World -> string -> option Dict.
Variable self_parser : Value.
Variable fuel : nat.

Hypothesis command_kept : forall a h,
  PyDict.get "command" (h_ns (snd (ext a h))) = PyDict.get "command" (h_ns h).
Hypothesis data_kept : forall a h, h_data (snd (ext a h)) = h_data h.

Lemma data_perform (P : InvData -> Prop) a :
  preserves (fun h => P (h_data h)) (perform ext a).
Proof.
  intros [h log] Hs. unfold perform. simpl in *.
  pose proof (data_kept a h) as Hd. destruct (ext a h) as [r h1]. simpl in *.
  now rewrite Hd.
Qed.

Lemma data_getitem_other (c : Value) key :
  key <> "command" ->
  preserves (fun h : Heap World => PyDict.get "command" (items (h_data h)) = Some c)
    (data_getitem key).
Proof.
  intros Hk [h log] Hs. unfold data_getitem, bind, get_heap, ret, modify, raise.
  simpl in *. destruct (PyDict.get key (items (h_data h))); [exact Hs|].
  destruct (is_defaultdict (h_data h)); simpl; [|exact Hs].
  rewrite get_set. destruct (String.eqb_spec "command" key); [congruence | exact Hs].
Qed.

Ltac data_same :=
  let h := fresh "h" in
  let H := fresh "H" in
  intros h H; cbn [h_data set_ns set_args set_event_data set_lists]; exact H.

Ltac datas :=
  repeat first
    [ apply preserves_ret | apply preserves_raise | apply preserves_lift
    | apply preserves_get_heap | apply data_perform
    | apply (data_perform (fun d => PyDict.get "command" (items d) = Some _))
    | apply data_getitem_other; discriminate
    | apply preserves_modify; data_same
    | apply preserves_bind; [ | intros ? ]
    | apply preserves_try_except; [ | intros ? ]
    | apply preserves_for_each; intros ?
    | apply preserves_for_in; intros ?
    | match goal with
      | |- preserves _ (match ?x with _ => _ end) => destruct x
      end ].

Lemma data_validation (P : InvData -> Prop) :
  preserves (fun h => P (h_data h)) (_validation ext self_parser fuel).
Proof.
  unfold _validation, validation_try, validation_except, _validate_cmd_level,
    _validate_arg_level, delattr_if_present, delattr, is_true, get_ns.
  datas; unfold call_with_ns; datas.
Qed.

Lemma data_after_command (c : Value) cmd_tbl :
  preserves (fun h : Heap World => PyDict.get "command" (items (h_data h)) = Some c)
    (parsed_args <- get_ns (World:=World) ;;
     deprecations <- collect_deprecations resolve ;;
     print_deprecations ext fuel deprecations ;;
     result_stage ext cmd_tbl (_filter_params parsed_args)).
Proof.
  unfold collect_deprecations, print_deprecations, result_stage, getattr, get_ns, new_list,
    is_true, append.
  datas.
Qed.

Lemma command_attr_perform (c : option Value) a :
  preserves (fun h => PyDict.get "command" (h_ns h) = c) (perform ext a).
Proof.
  intros [h log] Hs. unfold perform. simpl in *.
  pose proof (command_kept a h) as Hc. destruct (ext a h) as [r h1]. simpl in *.
  now rewrite Hc.
Qed.

Lemma command_attr_delattr (c : option Value) attr :
  attr <> "command" ->
  preserves (fun h : Heap World => PyDict.get "command" (h_ns h) = c)
    (delattr_if_present (World:=World) attr).
Proof.
  intros Hattr [h log] Hs. rewrite delattr_if_present_run. simpl in *.
  rewrite get_remove_other by congruence. exact Hs.
Qed.

Ltac attr_same :=
  let h := fresh "h" in
  let H := fresh "H" in
  intros h H; cbn [h_ns set_data set_args set_event_data set_lists]; exact H.

Ltac attrs :=
  repeat first
    [ apply preserves_ret | apply preserves_raise | apply preserves_lift
    | apply preserves_get_heap | apply command_attr_perform
    | apply command_attr_delattr; discriminate
    | apply preserves_modify; attr_same
    | apply preserves_bind; [ | intros ? ]
    | apply preserves_try_except; [ | intros ? ]
    | apply preserves_for_each; intros ?
    | apply preserves_for_in; intros ?
    | match goal with
      | |- preserves _ (match ?x with _ => _ end) => destruct x
      end ].

Lemma command_attr_validation (c : option Value) :
  preserves (fun h => PyDict.get "command" (h_ns h) = c) (_validation ext self_parser fuel).
Proof.
  unfold _validation, validation_try, validation_except, _validate_cmd_level,
    _validate_arg_level, is_true, get_ns.
  attrs; unfold call_with_ns; attrs.
Qed.

(** X15.  The command name in the invocation state, for collaborators that
    leave the invocation state and the [command] attribute of the namespace
    as they are.  A run stage whose validation raises ends with that
    exception and with the invocation state as it was, so [data['command']]
    still reads what it read before; a run stage that returns has stored
    the [command] attribute of the parsed namespace under [command]. *)
Theorem run_stage_records_command
    (cmd_tbl : Value) (h : Heap World) (log : list Action) :
  (forall e, fst (_validation ext self_parser fuel (h, log)) = Raise e ->
     fst (run_stage ext resolve self_parser fuel cmd_tbl (h, log)) = Raise e
     /\ h_data (fst (snd (run_stage ext resolve self_parser fuel cmd_tbl (h, log)))) = h_data h)
  /\ (forall r, fst (run_stage ext resolve self_parser fuel cmd_tbl (h, log)) = Ok r ->
        exists command,
          PyDict.get "command" (h_ns h) = Some command
          /\ PyDict.get "command"
               (items (h_data (fst (snd (run_stage ext resolve self_parser fuel cmd_tbl (h, log))))))
             = Some command).
Proof.
  split.
  - intros e He. unfold run_stage, bind.
    pose proof (data_validation (fun d => d = h_data h) (h, log) eq_refl) as Hd.
    destruct (_validation ext self_parser fuel (h, log)) as [[[]|e'] s1]; simpl in *;
      [discriminate|].
    injection He as ->. auto.
  - intros r Hr.
    destruct (run_stage ext resolve self_parser fuel cmd_tbl (h, log)) as [r' s'] eqn:Hrun.
    simpl in Hr. subst r'. unfold run_stage in Hrun.
    apply bind_ok in Hrun. destruct Hrun as [[] [s1 [Hval Hrun]]].
    pose proof (command_attr_validation (PyDict.get "command" (h_ns h)) (h, log) eq_refl)
      as Hc.
    rewrite Hval in Hc. simpl in Hc.
    apply bind_ok in Hrun. destruct Hrun as [command [s2 [Hcmd Hrun]]].
    unfold getattr, get_ns, bind, get_heap, ret, raise in Hcmd. simpl in Hcmd.
    rewrite Hc in Hcmd.
    destruct (PyDict.get "command" (h_ns h)) as [c|]; [|discriminate].
    injection Hcmd as <- <-.
    apply bind_ok in Hrun. destruct Hrun as [[] [s3 [Hset Hrun]]].
    unfold data_setitem, modify in Hset. injection Hset as <-.
    exists c. split; [reflexivity|].
    pose proof (data_after_command c cmd_tbl
                  (set_data
                     (mkInvData (is_defaultdict (h_data (fst s1)))
                        (PyDict.set "command" c (items (h_data (fst s1))))) (fst s1),
                   snd s1)) as Hd.
    rewrite Hrun in Hd. simpl in Hd. apply Hd.
    rewrite get_set. reflexivity.
Qed.

End RecordedCommand.

Lemma run_stage_records_command_witness :
  (forall a (h : Heap unit),
     PyDict.get "command" (h_ns (snd (passive a h))) = PyDict.get "command" (h_ns h))
  /\ (forall a (h : Heap unit), h_data (snd (passive a h)) = h_data h)
  /\ PyDict.get "command"
       (items (h_data (fst (snd (run_stage passive vm_registry (VObj 0) 8 vm_cmd_tbl
                                   (vm_parsed, []))))))
     = PyDict.get "command" (h_ns vm_parsed).
Proof.
  split; [reflexivity|]. split; [reflexivity|].
  destruct (proj2 (run_stage_records_command unit passive vm_registry (VObj 0) 8
                     (fun a h => eq_refl) (fun a h => eq_refl) vm_cmd_tbl vm_parsed [])
              (Some (mkCommandResultItem VNone VNone VNone)) eq_refl)
    as [command [Hc Hd]].
  now rewrite Hd, Hc.
Defined.
